(** * UnityMind search engine: a shallow embedding of [search.Engine]

    The engine of [main.go] (type [Engine] and its methods [AddDoc],
    [reindexDoc], [Search], [scoreToken], [avgDocLen], [LoadCache], and the
    helpers [tokenize], [countOccurrences], [extractExcerpt]) is transcribed
    function by function.

    Conventions of the embedding.
    - A Go [string] is a sequence of bytes: Rocq's [string].  Texts are taken
      in the ASCII range, where a rune is one byte; [unicode.IsLetter],
      [unicode.IsDigit], [strings.ToLower] and [strings.TrimSpace] are the
      restrictions of the Go functions to that range.
    - [len], slice positions and slot numbers are natural numbers; the
      caller-supplied [int] arguments [topK] and [maxLen] are integers, and
      the one addition that can leave the 64-bit range is wrapped.
    - A run-time panic (index or slice bounds out of range, [make] with a
      negative capacity) and a loop that never ends are the outcome [None].
    - A [float64] is idealised as a real number and [math.Log] as [ln]:
      rounding, infinities and NaN are outside the model.
    - A Go [map] is a [gmap]; where the code ranges over a map, the order of
      the visit is not fixed by the language and is kept explicit. *)

From Stdlib Require Import String Ascii List ZArith Lia Reals Lra Permutation Sorted.
From stdpp Require Import base option gmap strings list fin_maps sorting.

Set Warnings "-clear-no-such-hyp".

Local Open Scope list_scope.

(** ** Strings *)

Module GoStr.

Definition code (c : ascii) : nat := nat_of_ascii c.

Definition isUpper (c : ascii) : bool := (65 <=? code c)%nat && (code c <=? 90)%nat.
Definition isLower (c : ascii) : bool := (97 <=? code c)%nat && (code c <=? 122)%nat.

(** [unicode.IsLetter] and [unicode.IsDigit] on one-byte runes. *)
Definition IsLetter (c : ascii) : bool := isUpper c || isLower c.
Definition IsDigit (c : ascii) : bool := (48 <=? code c)%nat && (code c <=? 57)%nat.

Definition lowerRune (c : ascii) : ascii :=
  if isUpper c then ascii_of_nat (code c + 32) else c.

(** [strings.ToLower]. *)
Fixpoint ToLower (s : string) : string :=
  match s with
  | EmptyString => EmptyString
  | String c s' => String (lowerRune c) (ToLower s')
  end.

(** [strings.HasPrefix s prefix]. *)
Fixpoint HasPrefix (s pre : string) : bool :=
  match pre, s with
  | EmptyString, _ => true
  | String _ _, EmptyString => false
  | String a pre', String b s' => if decide (a = b) then HasPrefix s' pre' else false
  end.

(** [strings.Index s substr]: position of the first occurrence, [None]
    for Go's [-1]. *)
Fixpoint Index (s sub : string) : option nat :=
  if HasPrefix s sub then Some 0
  else match s with
       | EmptyString => None
       | String _ s' => S <$> Index s' sub
       end.

(** [strings.Contains]. *)
Definition Contains (s sub : string) : bool :=
  match Index s sub with Some _ => true | None => false end.

(** [s[n:]] for [n <= len(s)]. *)
Fixpoint from (n : nat) (s : string) : string :=
  match n, s with
  | O, _ => s
  | S n', String _ s' => from n' s'
  | S _, EmptyString => EmptyString
  end.

(** [s[:n]] for [n <= len(s)]. *)
Fixpoint upto (n : nat) (s : string) : string :=
  match n, s with
  | O, _ => EmptyString
  | S n', String c s' => String c (upto n' s')
  | S _, EmptyString => EmptyString
  end.

(** [s[lo:hi]]; Go panics unless [lo <= hi <= len(s)]. *)
Definition slice (s : string) (lo hi : nat) : option string :=
  if decide (lo <= hi <= String.length s)%nat then Some (upto (hi - lo) (from lo s))
  else None.

(** [strings.Join]. *)
Fixpoint Join (elems : list string) (sep : string) : string :=
  match elems with
  | [] => EmptyString
  | [x] => x
  | x :: rest => x +:+ sep +:+ Join rest sep
  end.

(** The ASCII white space of [strings.TrimSpace]. *)
Definition isSpace (c : ascii) : bool :=
  let n := code c in
  ((n =? 32) || (n =? 9) || (n =? 10) || (n =? 11) || (n =? 12) || (n =? 13))%nat.

Fixpoint trimLeft (s : string) : string :=
  match s with
  | String c s' => if isSpace c then trimLeft s' else s
  | EmptyString => EmptyString
  end.

Fixpoint trimRight (s : string) : string :=
  match s with
  | EmptyString => EmptyString
  | String c s' =>
      match trimRight s' with
      | EmptyString => if isSpace c then EmptyString else String c EmptyString
      | t => String c t
      end
  end.

Definition TrimSpace (s : string) : string := trimRight (trimLeft s).

End GoStr.

Import GoStr.

Local Open Scope string_scope.
Local Open Scope list_scope.

(** ** Data model *)

(** [type Doc struct]. *)
Record Doc := mkDoc {
  ID : string;
  Title : string;
  URL : string;
  Content : string;
  Tags : list string
}.

(** [type Engine struct]: the document store and the inverted index
    (token to slot numbers).  The lock [mu] has no sequential content. *)
Record Engine := mkEngine {
  docs : list Doc;
  index : gmap string (list nat)
}.

Definition NewEngine : Engine := {| docs := []; index := ∅ |}.

Definition DocCount (e : Engine) : nat := length (docs e).

(** ** Tokenizer *)

Definition stopWords : list string :=
  ["the"; "a"; "an"; "is"; "in"; "to"; "of"; "and"; "or"; "for";
   "on"; "with"; "this"; "that"; "it"; "be"; "as"; "at"; "by"; "we";
   "how"; "do"; "i"; "you"; "can"; "what"; "from"; "are"; "use"; "used"].

Definition isStopWord (tok : string) : bool := bool_decide (tok ∈ stopWords).

(** The body shared by the two places that close a run of letters and
    digits: keep it when it has at least two bytes and is no stop word. *)
Definition flush (current : string) (tokens : list string) : list string :=
  if (2 <=? String.length current)%nat then
    if isStopWord current then tokens else tokens ++ [current]
  else tokens.

Fixpoint tokenizeLoop (text current : string) (tokens : list string) : list string :=
  match text with
  | EmptyString => flush current tokens
  | String r rest =>
      if IsLetter r || IsDigit r
      then tokenizeLoop rest (current +:+ String r EmptyString) tokens
      else tokenizeLoop rest EmptyString (flush current tokens)
  end.

Definition tokenize (text : string) : list string :=
  tokenizeLoop (ToLower text) EmptyString [].

(** ** Index maintenance *)

(** The loop of [reindexDoc]: [e.index[tok] = append(e.index[tok], idx)]
    for each token not yet in the per-call set [seen]. *)
Fixpoint reindexLoop (tokens : list string) (seen : gset string)
    (ix : gmap string (list nat)) (idx : nat) : gmap string (list nat) :=
  match tokens with
  | [] => ix
  | tok :: rest =>
      if decide (tok ∈ seen) then reindexLoop rest seen ix idx
      else reindexLoop rest ({[tok]} ∪ seen)
             (<[tok := default [] (ix !! tok) ++ [idx]]> ix) idx
  end.

Definition combined (doc : Doc) : string :=
  Title doc +:+ " " +:+ Content doc +:+ " " +:+ Join (Tags doc) " ".

Definition reindexDoc (e : Engine) (idx : nat) (doc : Doc) : Engine :=
  {| docs := docs e;
     index := reindexLoop (tokenize (combined doc)) ∅ (index e) idx |}.

(** The scan [for i, d := range e.docs] of [AddDoc]: the first slot whose
    URL is the one looked for. *)
Fixpoint findURL (url : string) (ds : list Doc) (i : nat) : option nat :=
  match ds with
  | [] => None
  | d :: rest => if decide (URL d = url) then Some i else findURL url rest (S i)
  end.

Definition AddDoc (e : Engine) (doc : Doc) : Engine :=
  match findURL (URL doc) (docs e) 0 with
  | Some i => reindexDoc {| docs := <[i := doc]> (docs e); index := index e |} i doc
  | None =>
      let idx := length (docs e) in
      reindexDoc {| docs := docs e ++ [doc]; index := index e |} idx doc
  end.

(** [type Result struct]. *)
Record Result := mkResult {
  RTitle : string;
  RURL : string;
  Excerpt : string;
  Score : R
}.

(** [AddResults]. *)
Definition AddResults (e : Engine) (results : list Result) : Engine :=
  fold_left
    (fun e r => AddDoc e {| ID := RURL r; Title := RTitle r; URL := RURL r;
                            Content := Excerpt r; Tags := [] |})
    results e.


(** ** Term frequency *)

(** The loop of [countOccurrences]: [idx] is the position reached in
    [lower], [count] the occurrences found so far.  Each turn of the Go loop
    spends one unit of [fuel]. *)
Fixpoint countLoop (fuel : nat) (tok lower : string) (idx count : nat) : option nat :=
  match fuel with
  | O => None
  | S fuel' =>
      match Index (from idx lower) tok with
      | None => Some count
      | Some i => countLoop fuel' tok lower (idx + (i + String.length tok)) (S count)
      end
  end.

Definition countOccurrences (tok text : string) : option nat :=
  let lower := ToLower text in
  countLoop (S (String.length lower)) tok lower 0 0.

(** ** Excerpts *)

Definition wrap64 (z : Z) : Z := ((z + 2 ^ 63) mod 2 ^ 64 - 2 ^ 63)%Z.

Definition windowSize : nat := 200.

(** [hits] of one window: one for each element of [tokens] that the window
    contains. *)
Definition countHits (window : string) (tokens : list string) : nat :=
  fold_left (fun hits tok => if Contains window tok then S hits else hits) tokens 0.

(** The window loop of [extractExcerpt], from position [i] on; the result
    is [(bestPos, bestHits)]. *)
Fixpoint windowLoop (fuel : nat) (lower : string) (tokens : list string)
    (i bestPos bestHits : nat) : option (nat * nat) :=
  match fuel with
  | O => None
  | S fuel' =>
      if (i + windowSize <? String.length lower)%nat then
        let end_ := if (String.length lower <? i + windowSize)%nat
                    then String.length lower else i + windowSize in
        window ← slice lower i end_;
        let hits := countHits window tokens in
        if (bestHits <? hits)%nat
        then windowLoop fuel' lower tokens (i + 50) i hits
        else windowLoop fuel' lower tokens (i + 50) bestPos bestHits
      else Some (bestPos, bestHits)
  end.

Definition extractExcerpt (content : string) (tokens : list string) (maxLen : Z)
    : option string :=
  if (String.length content =? 0)%nat then Some EmptyString
  else
    let lower := ToLower content in
    '(bestPos, _) ← windowLoop (S (String.length lower)) lower tokens 0 0 0;
    let start := if (50 <? bestPos)%nat then bestPos - 50 else bestPos in
    let end0 := wrap64 (Z.of_nat start + maxLen) in
    let end_ := if (Z.of_nat (String.length content) <? end0)%Z
                then Z.of_nat (String.length content) else end0 in
    if (end_ <? 0)%Z then None
    else
      body ← slice content start (Z.to_nat end_);
      let excerpt := TrimSpace body in
      let excerpt := if (0 <? start)%nat then "..." +:+ excerpt else excerpt in
      let excerpt := if (end_ <? Z.of_nat (String.length content))%Z
                     then excerpt +:+ "..." else excerpt in
      Some excerpt.

(** ** Scoring *)

Local Open Scope R_scope.

(** [scores[idx] += v]; a missing key reads as zero. *)
Definition bump (scores : gmap nat R) (idx : nat) (v : R) : gmap nat R :=
  <[idx := default 0 (scores !! idx) + v]> scores.

Definition docText (doc : Doc) : string := Content doc +:+ " " +:+ Title doc.

(** The factor [tfNorm] of [scoreToken].  For [avgLen = 0] the quotient
    [b * docLen / avgLen] of the code is [0 / 0], not a number; the
    statements on scores of a whole store take [0 < avgDocLen e]. *)
Definition tfNorm (tf : nat) (docLen avgLen k1 b : R) : R :=
  INR tf * (k1 + 1) / (INR tf + k1 * (1 - b + b * docLen / avgLen)).

(** The factor [idf] of [scoreToken]. *)
Definition idfOf (N df : R) : R := ln ((N - df + 0.5) / (df + 0.5) + 1).

(** The loop [for _, idx := range postings] of [scoreToken]. *)
Fixpoint scorePostings (e : Engine) (tok : string) (postings : list nat)
    (scores : gmap nat R) (idf avgLen k1 b boost : R) : option (gmap nat R) :=
  match postings with
  | [] => Some scores
  | idx :: rest =>
      doc ← docs e !! idx;
      let docLen := INR (length (tokenize (docText doc))) in
      tf ← countOccurrences tok (docText doc);
      scorePostings e tok rest
        (bump scores idx (idf * tfNorm tf docLen avgLen k1 b * boost))
        idf avgLen k1 b boost
  end.

Definition scoreToken (e : Engine) (tok : string) (queryTokens : list string)
    (scores : gmap nat R) (N avgLen k1 b boost : R) : option (gmap nat R) :=
  match index e !! tok with
  | None => Some scores
  | Some postings =>
      let df := INR (length postings) in
      scorePostings e tok postings scores (idfOf N df) avgLen k1 b boost
  end.

Definition avgDocLen (e : Engine) : R :=
  if (length (docs e) =? 0)%nat then 100
  else
    let total :=
      fold_left (fun total d => (total + length (tokenize (docText d)))%nat) (docs e) O in
    INR total / INR (length (docs e)).

(** ** Search *)

(** The guard of the prefix pass:
    [indexedTok != tok && strings.HasPrefix(indexedTok, tok) && len(tok) >= 3]. *)
Definition prefixMatch (tok indexedTok : string) : bool :=
  negb (bool_decide (indexedTok = tok)) && HasPrefix indexedTok tok
  && (3 <=? String.length tok)%nat.

(** [for indexedTok := range e.index], the terms being visited in the
    order [keys]. *)
Fixpoint prefixLoop (e : Engine) (tok : string) (tokens : list string)
    (keys : list string) (scores : gmap nat R) (N avgLen : R) : option (gmap nat R) :=
  match keys with
  | [] => Some scores
  | indexedTok :: rest =>
      if prefixMatch tok indexedTok then
        scores' ← scoreToken e indexedTok tokens scores N avgLen 1.5 0.75 0.7;
        prefixLoop e tok tokens rest scores' N avgLen
      else prefixLoop e tok tokens rest scores N avgLen
  end.

(** The terms of the index, in the order of one visit. *)
Definition indexKeys (e : Engine) : list string := (map_to_list (index e)).*1.

(** [for _, tok := range tokens]: exact match, then prefix matches. *)
Fixpoint tokenLoop (e : Engine) (todo tokens : list string)
    (scores : gmap nat R) (N avgLen : R) : option (gmap nat R) :=
  match todo with
  | [] => Some scores
  | tok :: rest =>
      s1 ← scoreToken e tok tokens scores N avgLen 1.5 0.75 1.0;
      s2 ← prefixLoop e tok tokens (indexKeys e) s1 N avgLen;
      tokenLoop e rest tokens s2 N avgLen
  end.

(** The title boost for one document: [scores[idx] += 2.0] for each query
    token found in the lowercased title. *)
Definition titleBoost (titleLower : string) (tokens : list string)
    (scores : gmap nat R) (idx : nat) : gmap nat R :=
  fold_left (fun sc tok => if Contains titleLower tok then bump sc idx 2.0 else sc)
    tokens scores.

(** [for idx, doc := range e.docs], from slot [idx] on. *)
Fixpoint titleLoop (ds : list Doc) (idx : nat) (tokens : list string)
    (scores : gmap nat R) : gmap nat R :=
  match ds with
  | [] => scores
  | doc :: rest =>
      titleLoop rest (S idx) tokens (titleBoost (ToLower (Title doc)) tokens scores idx)
  end.

(** The score map of a query, before ranking. *)
Definition searchScores (e : Engine) (tokens : list string) : option (gmap nat R) :=
  let N := INR (length (docs e)) in
  let avgLen := avgDocLen e in
  scores ← tokenLoop e tokens tokens ∅ N avgLen;
  Some (titleLoop (docs e) O tokens scores).

Record scoredDoc := mkScored { sd_idx : nat; sd_score : R }.

(** The inner loop of the insertion sort.  [before] is the part of the
    array to the left of the moving element [x], nearest neighbour first;
    the result is the rearranged part, [x] included, in the same reversed
    order.  [x] is swapped with its left neighbour as long as its score is
    strictly greater. *)
Fixpoint sift (x : scoredDoc) (before : list scoredDoc) : list scoredDoc :=
  match before with
  | [] => [x]
  | p :: before' =>
      if Rgt_dec (sd_score x) (sd_score p) then p :: sift x before'
      else x :: p :: before'
  end.

(** The insertion sort of [Search] on the array [ranked]. *)
Definition insertionSort (ranked : list scoredDoc) : list scoredDoc :=
  rev (fold_left (fun before x => sift x before) ranked []).

(** The loop that builds the results, [i] being the position of the head
    of [ranked]. *)
Fixpoint buildResults (e : Engine) (tokens : list string) (topK : Z) (maxScore : R)
    (i : nat) (ranked : list scoredDoc) (results : list Result) : option (list Result) :=
  match ranked with
  | [] => Some results
  | sd :: rest =>
      if (topK <=? Z.of_nat i)%Z then Some results
      else
        doc ← docs e !! sd_idx sd;
        let normalizedScore :=
          if Rgt_dec maxScore 0 then sd_score sd / maxScore else 0 in
        excerpt ← extractExcerpt (Content doc) tokens 300;
        buildResults e tokens topK maxScore (S i) rest
          (results ++ [ {| RTitle := Title doc; RURL := URL doc;
                           Excerpt := excerpt; Score := normalizedScore |} ])
  end.

(** What follows the scoring: collect, sort, normalise.  [visit] is the
    order in which [range scores] delivered the entries. *)
Definition rankResults (e : Engine) (tokens : list string) (topK : Z)
    (visit : list (nat * R)) : option (list Result) :=
  let ranked := insertionSort (map (fun p => mkScored p.1 p.2) visit) in
  if (topK <? 0)%Z then None
  else
    let maxScore := match ranked with [] => 0 | sd :: _ => sd_score sd end in
    buildResults e tokens topK maxScore O ranked [].

(** An order in which Go may visit the entries of a map. *)
Definition visitOf {K V} `{Countable K} (m : gmap K V) (l : list (K * V)) : Prop :=
  l ≡ₚ map_to_list m.

(** [Search], for a choice [pick] of the order of [range scores]. *)
Definition Search (pick : gmap nat R → list (nat * R)) (e : Engine)
    (query : string) (topK : Z) : option (list Result) :=
  if (length (docs e) =? 0)%nat then Some []
  else
    let tokens := tokenize query in
    if (length tokens =? 0)%nat then Some []
    else
      scores ← searchScores e tokens;
      rankResults e tokens topK (pick scores).

(** The choices Go allows. *)
Definition admissible (pick : gmap nat R → list (nat * R)) : Prop :=
  ∀ m, visitOf m (pick m).

(** ** Persistence *)

Section Persistence.

(** The file system and the JSON decoder are the environment's:
    [os.ReadFile] yields the bytes or an error, [json.Unmarshal] the
    documents of the [cacheFile] or an error. *)
Context {error : Type}.
Variable ReadFile : string → error + string.
Variable Unmarshal : string → error + list Doc.

Definition LoadCache (e : Engine) (path : string) : Engine * option error :=
  match ReadFile path with
  | inl err => (e, Some err)
  | inr data =>
      match Unmarshal data with
      | inl err => (e, Some err)
      | inr cfDocs => (fold_left AddDoc cfDocs e, None)
      end
  end.

End Persistence.

(** ** The excerpt as the specification words it *)

(** The window of 200 bytes at position [i] (shorter at the end of the
    text). *)
Definition windowAt (lower : string) (i : nat) : string :=
  upto windowSize (from i lower).





(** ** The excerpt of the code, position by position *)

(** [hits] of the window at [i]. *)
Definition hitsAt (lower : string) (tokens : list string) (i : nat) : nat :=
  countHits (windowAt lower i) tokens.

(** [i] is a position of the window loop. *)
Definition visited (lower : string) (i : nat) : Prop :=
  ∃ k, i = (50 * k)%nat ∧ (i + windowSize < String.length lower)%nat.

(** [bestPos] is the first visited position with the highest hit count, or
    0 when no visited window has a hit. *)
Definition firstBest (lower : string) (tokens : list string) (bestPos : nat) : Prop :=
  (bestPos = 0%nat ∧ ∀ i, visited lower i → hitsAt lower tokens i = 0%nat)
  ∨ (visited lower bestPos
     ∧ (0 < hitsAt lower tokens bestPos)%nat
     ∧ (∀ i, visited lower i → (hitsAt lower tokens i <= hitsAt lower tokens bestPos)%nat)
     ∧ (∀ i, visited lower i → (i < bestPos)%nat →
             (hitsAt lower tokens i < hitsAt lower tokens bestPos)%nat)).

(** The excerpt cut at [start]: the slice up to [start + maxLen] or the
    end of the text, trimmed, with the marks of the cut ends. *)
Definition excerptFrom (content : string) (start maxLen : nat) : string :=
  let stop := Nat.min (start + maxLen) (String.length content) in
  let cut := TrimSpace (upto (stop - start) (from start content)) in
  (if (0 <? start)%nat then "..." else EmptyString)
  +:+ cut
  +:+ (if (stop <? String.length content)%nat then "..." else EmptyString).

(** ** Sample texts *)

(** [n] dots. *)
Fixpoint dots (n : nat) : string :=
  match n with
  | O => EmptyString
  | S n' => String "." (dots n')
  end.

(** 600 bytes: [aa] at 0, [bb cc] at 300. *)
Definition sampleBody : string :=
  "aa" +:+ dots 298 +:+ "bb cc" +:+ dots 295.

Definition sampleTokens : list string := ["aa"; "aa"; "bb"; "cc"].

(** ** The score of a slot, term by term *)

(** The accumulated score of a slot; a slot without entry counts as 0. *)
Definition scoreOf (scores : gmap nat R) (idx : nat) : R := default 0 (scores !! idx).

(** What [scoreToken] adds for one entry [idx] of the postings of [tok]:
    [idf * tfNorm * boost], with the document length and the term
    frequency of the document in that slot. *)
Definition perPosting (e : Engine) (tok : string) (idf avgLen k1 b boost : R)
    (idx : nat) : R :=
  match docs e !! idx with
  | Some doc =>
      match countOccurrences tok (docText doc) with
      | Some tf =>
          idf * tfNorm tf (INR (length (tokenize (docText doc)))) avgLen k1 b * boost
      | None => 0
      end
  | None => 0
  end.

(** What one call [scoreToken(u, ..., boost)] adds to slot [idx]: one
    [perPosting] for each entry of the slot in the postings of [u]. *)
Definition termScore (e : Engine) (u : string) (N avgLen boost : R) (idx : nat) : R :=
  match index e !! u with
  | Some postings =>
      INR (count_occ Nat.eq_dec postings idx)
      * perPosting e u (idfOf N (INR (length postings))) avgLen 1.5 0.75 boost idx
  | None => 0
  end.

Fixpoint sumOver {A} (f : A → R) (l : list A) : R :=
  match l with
  | [] => 0
  | x :: rest => f x + sumOver f rest
  end.

(** What the prefix pass for the query token [t] adds to slot [idx]. *)
Definition prefixScore (e : Engine) (t : string) (keys : list string)
    (N avgLen : R) (idx : nat) : R :=
  sumOver (λ u, if prefixMatch t u then termScore e u N avgLen 0.7 idx else 0) keys.

(** The number of query tokens found in a lowercased title. *)
Definition titleHits (titleLower : string) (tokens : list string) : nat :=
  length (filter (λ tok, Contains titleLower tok = true) tokens).

(** The postings of a term, empty for a term that is not indexed. *)
Definition postingsOf (e : Engine) (u : string) : list nat := default [] (index e !! u).

(** The title boost of slot [idx]: 2.0 for each query token found in the
    lowercased title of its document. *)
Definition titleScore (e : Engine) (tokens : list string) (idx : nat) : R :=
  match docs e !! idx with
  | Some doc => 2.0 * INR (titleHits (ToLower (Title doc)) tokens)
  | None => 0
  end.

(** The whole score of slot [idx] for the query [tokens]: for each token
    of the query, repeated ones again, the exact term with weight 1.0 and
    every other indexed term that it is a prefix of with weight 0.7; then
    the title boost. *)
Definition totalScore (e : Engine) (tokens : list string) (idx : nat) : R :=
  let N := INR (length (docs e)) in
  let avgLen := avgDocLen e in
  sumOver (λ t, termScore e t N avgLen 1.0 idx
                + prefixScore e t (indexKeys e) N avgLen idx) tokens
  + titleScore e tokens idx.

(** The slots that get an entry in the score map. *)
Definition candidate (e : Engine) (tokens : list string) (idx : nat) : Prop :=
  (∃ t, t ∈ tokens
        ∧ (idx ∈ postingsOf e t
           ∨ ∃ u, u ∈ indexKeys e ∧ prefixMatch t u = true ∧ idx ∈ postingsOf e u))
  ∨ (∃ doc t, docs e !! idx = Some doc ∧ t ∈ tokens
              ∧ Contains (ToLower (Title doc)) t = true).

(** The texts of the store have lengths that a Go [int] holds, with room
    for the 300 bytes of an excerpt. *)
Definition goSized (e : Engine) : Prop :=
  ∀ doc, doc ∈ docs e → (Z.of_nat (String.length (Content doc)) + 300 < 2 ^ 63)%Z.

(** The array [ranked] right after the loop over the score map. *)
Definition collect (visit : list (nat * R)) : list scoredDoc :=
  map (λ p, mkScored p.1 p.2) visit.

(** The order of the ranking: scores do not increase along the list. *)
Definition descending (l : list scoredDoc) : Prop :=
  StronglySorted (λ a b, sd_score b <= sd_score a) l.

Definition ascending (l : list scoredDoc) : Prop :=
  StronglySorted (λ a b, sd_score a <= sd_score b) l.

(** [normalizedScore] of [Search]. *)
Definition normalized (maxScore raw : R) : R :=
  if Rgt_dec maxScore 0 then raw / maxScore else 0.

(** The result built from a ranked entry. *)
Definition resultFor (e : Engine) (tokens : list string) (maxScore : R)
    (sd : scoredDoc) (r : Result) : Prop :=
  ∃ doc, docs e !! sd_idx sd = Some doc
         ∧ RTitle r = Title doc ∧ RURL r = URL doc
         ∧ extractExcerpt (Content doc) tokens 300 = Some (Excerpt r)
         ∧ Score r = normalized maxScore (sd_score sd).

(** The token counts of the documents, added up. *)
Definition totalTokens (ds : list Doc) : nat :=
  sum_list (map (λ d, length (tokenize (docText d))) ds).

(** ** A sample environment for [LoadCache] *)

(** A file that holds one brace, and the decoder's answer to it. *)
Definition sampleFile : string → string + string := λ _, inr "{".

Definition brokenDecoder : string → string + list Doc :=
  λ _, inl "unexpected end of JSON input".

(** ** Sample documents *)

Definition docRigid : Doc :=
  {| ID := "u1"; Title := ""; URL := "u1"; Content := "rigidbody"; Tags := [] |}.

Definition docRigid' : Doc :=
  {| ID := "u1"; Title := "Physics"; URL := "u1";
     Content := "rigidbody physics"; Tags := ["unity"] |}.

(** A page that has its subject in the tags only. *)
Definition docTagged : Doc :=
  {| ID := "u3"; Title := "Intro"; URL := "u3"; Content := "hello world";
     Tags := ["physics"] |}.

Definition tagEngine : Engine := AddDoc NewEngine docTagged.

(** The store with the one page [docRigid]. *)
Definition rigidEngine : Engine := AddDoc NewEngine docRigid.

(** Two pages of five tokens each: the term [foo] five times in the
    first, once in the second. *)
Definition docFive : Doc :=
  {| ID := "a"; Title := ""; URL := "a"; Content := "foo foo foo foo foo"; Tags := [] |}.

Definition docOne : Doc :=
  {| ID := "b"; Title := ""; URL := "b"; Content := "foo bar bar bar bar"; Tags := [] |}.

(** Both pages upserted, then upserted again. *)
Definition dupEngine : Engine :=
  AddDoc (AddDoc (AddDoc (AddDoc NewEngine docFive) docOne) docFive) docOne.

(** Both pages upserted once. *)
Definition pairEngine : Engine := AddDoc (AddDoc NewEngine docFive) docOne.

(** The state of the window loop when it is about to visit position
    [50 * k]. *)
Definition bestSoFar (lower : string) (tokens : list string) (k bp bh : nat) : Prop :=
  (bp = 0%nat ∧ bh = 0%nat ∧ ∀ j, (j < k)%nat → hitsAt lower tokens (50 * j) = 0%nat)
  ∨ (∃ kb, (kb < k)%nat ∧ bp = (50 * kb)%nat
           ∧ (bp + windowSize < String.length lower)%nat
           ∧ bh = hitsAt lower tokens bp ∧ (0 < bh)%nat
           ∧ (∀ j, (j < k)%nat → (hitsAt lower tokens (50 * j) <= bh)%nat)
           ∧ (∀ j, (j < kb)%nat → (hitsAt lower tokens (50 * j) < bh)%nat)).

(** ** Orders of visit *)

(** Two of the orders in which [range scores] may deliver the entries: by
    increasing slot, and by decreasing slot. *)
Definition slotLe (a b : nat * R) : Prop := (a.1 <= b.1)%nat.

#[global] Instance slotLe_dec a b : Decision (slotLe a b) := decide (a.1 <= b.1)%nat.

Definition pickAsc (m : gmap nat R) : list (nat * R) := merge_sort slotLe (map_to_list m).

Definition pickDesc (m : gmap nat R) : list (nat * R) := rev (pickAsc m).

(** A second page with the text of [docRigid]. *)
Definition docTwin : Doc :=
  {| ID := "u2"; Title := ""; URL := "u2"; Content := "rigidbody"; Tags := [] |}.

Definition twinEngine : Engine := AddDoc (AddDoc NewEngine docRigid) docTwin.

(** ** Reachable engine states *)

(** Every engine is a fresh one to which documents were added: [AddResults]
    and [LoadCache] only call [AddDoc]. *)
Inductive reachable : Engine → Prop :=
| reach_new : reachable NewEngine
| reach_add e doc : reachable e → reachable (AddDoc e doc).

(** Postings only name stored slots. *)
Definition postingsInRange (e : Engine) : Prop :=
  ∀ tok postings i,
    index e !! tok = Some postings → i ∈ postings → (i < length (docs e))%nat.

(** The terms of the index are tokens: they are not empty. *)
Definition keysNonEmpty (e : Engine) : Prop :=
  ∀ tok postings, index e !! tok = Some postings → tok ≠ EmptyString.

(** ** Shapes of texts *)

(** Every byte of the text passes the test. *)
Fixpoint allBytes (p : ascii → bool) (s : string) : bool :=
  match s with
  | EmptyString => true
  | String c rest => p c && allBytes p rest
  end.

(** The bytes below 128, each of them one rune of one byte. *)
Definition isAscii (c : ascii) : bool := (code c <? 128)%nat.

(** The bytes that [tokenize] keeps in a token. *)
Definition wordByte (c : ascii) : bool := IsLetter c || IsDigit c.

(** The bytes of a token of [tokenize]: lowercase letters and digits. *)
Definition tokenByte (c : ascii) : bool := wordByte c && negb (isUpper c).

(** A token as [tokenize] delivers them. *)
Definition wellFormedToken (tok : string) : Prop :=
  (2 <= String.length tok)%nat
  ∧ isStopWord tok = false
  ∧ allBytes tokenByte tok = true.

(** ** The index a store should have *)

(** The term [tok] is a token of the combined text of the document in
    slot [i]. *)
Definition hasToken (ds : list Doc) (tok : string) (i : nat) : bool :=
  match ds !! i with
  | Some doc => bool_decide (tok ∈ tokenize (combined doc))
  | None => false
  end.

(** The slots whose document has the token, by increasing slot. *)
Definition slotsWith (ds : list Doc) (tok : string) : list nat :=
  List.filter (hasToken ds tok) (seq 0 (length ds)).

(** Every token of a stored document leads to its slot. *)
Definition indexComplete (e : Engine) : Prop :=
  ∀ i doc tok,
    docs e !! i = Some doc → tok ∈ tokenize (combined doc) → i ∈ postingsOf e tok.

(** A cache file and a decoder that yields the documents of [dupEngine]. *)
Definition cacheFile : string → string + string := λ _, inr "docs".

Definition cacheDecoder : string → string + list Doc := λ _, inr (docs dupEngine).

(** ** Links *)

(** [docs.DocLink]. *)
Record DocLink := mkLink { LTitle : string; LURL : string }.

(** The loop of [toLinks]: a result whose URL was not seen yet gives a
    link. *)
Fixpoint toLinksLoop (results : list Result) (seen : gset string)
    (links : list DocLink) : list DocLink :=
  match results with
  | [] => links
  | r :: rest =>
      if decide (RURL r ∈ seen) then toLinksLoop rest seen links
      else toLinksLoop rest ({[RURL r]} ∪ seen)
             (links ++ [ {| LTitle := RTitle r; LURL := RURL r |} ])
  end.

(** [toLinks] of the chat handler. *)
Definition toLinks (results : list Result) : list DocLink :=
  toLinksLoop results ∅ [].

(** The link of a result. *)
Definition linkOf (r : Result) : DocLink := {| LTitle := RTitle r; LURL := RURL r |}.

(** ** Entries of one score *)

Definition sameScore (s : R) (sd : scoredDoc) : bool :=
  if Req_dec_T (sd_score sd) s then true else false.


(** A result as the live search delivers them. *)
Definition sampleResult : Result :=
  {| RTitle := "Rigidbody"; RURL := "u9"; Excerpt := "rigid"; Score := 1 |}.

(** * Properties *)

(** ** The tokenizer *)

Lemma flush_all (P : string → Prop) current tokens :
  (∀ tok, (2 <= String.length tok)%nat → P tok) →
  Forall P tokens → Forall P (flush current tokens).
Proof.
  intros HP Hall. unfold flush.
  destruct (2 <=? String.length current)%nat eqn:Hlen; [|done].
  destruct (isStopWord current); [done|].
  apply Forall_app. split; [done|].
  constructor; [|constructor]. apply HP. by apply Nat.leb_le.
Qed.

Lemma tokenizeLoop_all (P : string → Prop) text :
  (∀ tok, (2 <= String.length tok)%nat → P tok) →
  ∀ current tokens, Forall P tokens → Forall P (tokenizeLoop text current tokens).
Proof.
  intros HP. induction text as [|r rest IH]; intros current tokens Hall; simpl.
  - by apply flush_all.
  - destruct (IsLetter r || IsDigit r).
    + by apply IH.
    + apply IH. by apply flush_all.
Qed.

Lemma tokenize_length text tok :
  tok ∈ tokenize text → (2 <= String.length tok)%nat.
Proof.
  intros Hin.
  assert (Hall : Forall (λ t, (2 <= String.length t)%nat) (tokenize text)).
  { apply tokenizeLoop_all; [done|constructor]. }
  rewrite Forall_forall in Hall. by apply Hall.
Qed.

Lemma tokenize_nonempty text tok : tok ∈ tokenize text → tok ≠ EmptyString.
Proof. intros Hin ->. apply tokenize_length in Hin. simpl in Hin. lia. Qed.

(** ** Index maintenance *)

(** What one call of [reindexDoc] does to the postings of a term: the slot
    is appended once when the term is among the tokens and was not seen
    before, and nothing else changes. *)
Lemma reindexLoop_lookup tokens : ∀ seen ix idx tok,
  reindexLoop tokens seen ix idx !! tok
  = if decide (tok ∈ tokens ∧ tok ∉ seen)
    then Some (default [] (ix !! tok) ++ [idx])
    else ix !! tok.
Proof.
  induction tokens as [|t rest IH]; intros seen ix idx tok; cbn [reindexLoop].
  - destruct (decide (tok ∈ [] ∧ tok ∉ seen)) as [[H _]|H]; [|done].
    by apply elem_of_nil in H.
  - destruct (decide (t ∈ seen)) as [Hseen|Hseen].
    + rewrite IH.
      destruct (decide (tok ∈ rest ∧ tok ∉ seen)) as [H1|H1];
        destruct (decide (tok ∈ t :: rest ∧ tok ∉ seen)) as [H2|H2];
        try done; exfalso; set_solver.
    + rewrite IH. destruct (decide (tok = t)) as [->|Hne].
      * rewrite lookup_insert_eq.
        destruct (decide (t ∈ rest ∧ t ∉ {[t]} ∪ seen)) as [H1|H1];
          [exfalso; set_solver|].
        destruct (decide (t ∈ t :: rest ∧ t ∉ seen)) as [H2|H2]; [done|].
        exfalso. apply H2. split; [left|done].
      * rewrite lookup_insert_ne by done.
        destruct (decide (tok ∈ rest ∧ tok ∉ {[t]} ∪ seen)) as [H1|H1];
          destruct (decide (tok ∈ t :: rest ∧ tok ∉ seen)) as [H2|H2];
          try done; exfalso; set_solver.
Qed.

Lemma reindexDoc_lookup e idx doc tok :
  index (reindexDoc e idx doc) !! tok
  = if decide (tok ∈ tokenize (combined doc))
    then Some (default [] (index e !! tok) ++ [idx])
    else index e !! tok.
Proof.
  unfold reindexDoc; simpl. rewrite reindexLoop_lookup.
  destruct (decide (tok ∈ tokenize (combined doc) ∧ tok ∉ ∅)) as [H1|H1];
    destruct (decide (tok ∈ tokenize (combined doc))) as [H2|H2];
    try done; exfalso; set_solver.
Qed.

(** ** Upsert *)

Lemma findURL_Some url ds : ∀ i k,
  findURL url ds i = Some k →
  (i <= k)%nat ∧ ∃ d, ds !! (k - i)%nat = Some d ∧ URL d = url.
Proof.
  induction ds as [|d rest IH]; intros i k H; simpl in H; [done|].
  case_decide as Hd.
  - injection H as <-. split; [lia|]. exists d. by rewrite Nat.sub_diag.
  - apply IH in H as [Hle (d' & Hl & Hu)]. split; [lia|].
    exists d'. split; [|done].
    replace (k - i)%nat with (S (k - S i)) by lia. done.
Qed.

Lemma findURL_None url ds : ∀ i,
  findURL url ds i = None ↔ url ∉ URL <$> ds.
Proof.
  induction ds as [|d rest IH]; intros i; simpl.
  - split; [|done]. intros _ H. by apply elem_of_nil in H.
  - case_decide as Hd.
    + split; [done|]. intros H. exfalso. apply H. subst. left.
    + rewrite IH. rewrite not_elem_of_cons. naive_solver.
Qed.

Lemma findURL_is_Some url ds i :
  url ∈ URL <$> ds → is_Some (findURL url ds i).
Proof.
  intros Hin. destruct (findURL url ds i) eqn:H; [done|].
  by apply findURL_None in H.
Qed.

(** The two cases of [AddDoc]. *)
Lemma AddDoc_replace e doc i :
  findURL (URL doc) (docs e) 0 = Some i →
  docs (AddDoc e doc) = <[i := doc]> (docs e)
  ∧ index (AddDoc e doc) = index (reindexDoc e i doc)
  ∧ (i < length (docs e))%nat.
Proof.
  intros H. unfold AddDoc. rewrite H. simpl. split; [done|]. split; [done|].
  apply findURL_Some in H as [_ (d & Hl & _)].
  rewrite Nat.sub_0_r in Hl. by apply lookup_lt_Some in Hl.
Qed.

Lemma AddDoc_append e doc :
  findURL (URL doc) (docs e) 0 = None →
  docs (AddDoc e doc) = docs e ++ [doc]
  ∧ index (AddDoc e doc) = index (reindexDoc e (length (docs e)) doc).
Proof. intros H. unfold AddDoc. rewrite H. done. Qed.

Lemma AddDoc_URLs e doc :
  NoDup (URL <$> docs e) → NoDup (URL <$> docs (AddDoc e doc)).
Proof.
  intros Hnd. destruct (findURL (URL doc) (docs e) 0) as [i|] eqn:H.
  - destruct (AddDoc_replace _ _ _ H) as (-> & _ & Hlt).
    apply findURL_Some in H as [_ (d & Hl & Hu)]. rewrite Nat.sub_0_r in Hl.
    rewrite list_fmap_insert. rewrite list_insert_id; [done|].
    rewrite list_lookup_fmap, Hl. simpl. by rewrite Hu.
  - destruct (AddDoc_append _ _ H) as (-> & _).
    rewrite fmap_app. simpl. apply NoDup_app. split; [done|].
    split; [|apply NoDup_singleton].
    intros x Hx Hx'. apply list_elem_of_singleton in Hx'. subst x.
    by apply findURL_None in H.
Qed.

Lemma AddDoc_present e doc : URL doc ∈ URL <$> docs (AddDoc e doc).
Proof.
  destruct (findURL (URL doc) (docs e) 0) as [i|] eqn:H.
  - destruct (AddDoc_replace _ _ _ H) as (-> & _ & Hlt).
    rewrite list_fmap_insert. apply list_elem_of_lookup. exists i.
    apply list_lookup_insert_eq. by rewrite length_fmap.
  - destruct (AddDoc_append _ _ H) as (-> & _).
    rewrite fmap_app. apply elem_of_app. right. simpl. left.
Qed.

Lemma AddDoc_count e doc :
  DocCount (AddDoc e doc)
  = if decide (URL doc ∈ URL <$> docs e) then DocCount e else S (DocCount e).
Proof.
  unfold DocCount. destruct (findURL (URL doc) (docs e) 0) as [i|] eqn:H.
  - destruct (AddDoc_replace _ _ _ H) as (-> & _ & _). rewrite length_insert.
    case_decide as Hin; [done|]. apply (findURL_None _ _ 0%nat) in Hin. congruence.
  - destruct (AddDoc_append _ _ H) as (-> & _). rewrite length_app. simpl.
    apply findURL_None in H. case_decide; [done|lia].
Qed.

Lemma reachable_URLs e : reachable e → NoDup (URL <$> docs e).
Proof.
  induction 1 as [|e doc _ IH]; [apply NoDup_nil_2|by apply AddDoc_URLs].
Qed.

Lemma findURL_shift url ds : ∀ i k,
  findURL url ds (S i) = Some (S k) ↔ findURL url ds i = Some k.
Proof.
  induction ds as [|d rest IH]; intros i k; simpl; [done|].
  destruct (decide (URL d = url)); [|apply IH].
  split; intros H; injection H as H; by subst.
Qed.

Lemma findURL_shift_None url ds : ∀ i j,
  findURL url ds i = None → findURL url ds j = None.
Proof. intros i j H. apply findURL_None. by apply findURL_None in H. Qed.

Lemma findURL_S_pos url ds : ∀ i k, findURL url ds (S i) = Some k → ∃ k', k = S k'.
Proof.
  intros i k H. apply findURL_Some in H as [Hle _].
  destruct k as [|k']; [lia|by exists k'].
Qed.

(** After an upsert the document sits in the slot that a new scan for its
    URL finds. *)
Lemma findURL_after_replace doc ds : ∀ i,
  findURL (URL doc) ds 0 = Some i →
  findURL (URL doc) (<[i := doc]> ds) 0 = Some i ∧ <[i := doc]> ds !! i = Some doc.
Proof.
  induction ds as [|d rest IH]; intros i H; simpl in H; [done|].
  destruct (decide (URL d = URL doc)) as [Hd|Hd].
  - injection H as <-. simpl. by rewrite decide_True.
  - destruct (findURL_S_pos _ _ _ _ H) as [k' ->].
    apply -> findURL_shift in H. apply IH in H as [H1 H2].
    simpl. rewrite decide_False by done. split; [|done].
    by apply findURL_shift.
Qed.

Lemma findURL_after_append doc ds :
  findURL (URL doc) ds 0 = None →
  findURL (URL doc) (ds ++ [doc]) 0 = Some (length ds)
  ∧ (ds ++ [doc]) !! length ds = Some doc.
Proof.
  induction ds as [|d rest IH]; intros H; simpl in *.
  - by rewrite decide_True.
  - destruct (decide (URL d = URL doc)) as [Hd|Hd]; [done|].
    apply (findURL_shift_None _ _ _ 0%nat) in H. apply IH in H as [H1 H2].
    split; [|done]. by apply findURL_shift.
Qed.

Lemma AddDoc_slot e doc :
  ∃ i, findURL (URL doc) (docs (AddDoc e doc)) 0 = Some i
       ∧ docs (AddDoc e doc) !! i = Some doc.
Proof.
  destruct (findURL (URL doc) (docs e) 0) as [i|] eqn:H.
  - destruct (AddDoc_replace _ _ _ H) as (-> & _ & _).
    exists i. by apply findURL_after_replace.
  - destruct (AddDoc_append _ _ H) as (-> & _).
    exists (length (docs e)). by apply findURL_after_append.
Qed.

(** C4. At most one stored document per URL in every reachable engine; a
    second upsert under the same URL overwrites the slot of the first and
    touches the postings of that slot alone; two such upserts in a row
    raise [DocCount] by at most one. *)
Theorem C4_one_document_per_location e d1 d2 :
  reachable e → URL d1 = URL d2 →
  let e1 := AddDoc e d1 in
  let e2 := AddDoc e1 d2 in
  NoDup (URL <$> docs e) ∧ NoDup (URL <$> docs e1) ∧ NoDup (URL <$> docs e2)
  ∧ (∃ i, docs e1 !! i = Some d1
          ∧ docs e2 = <[i := d2]> (docs e1)
          ∧ ∀ tok, index e2 !! tok
                   = if decide (tok ∈ tokenize (combined d2))
                     then Some (default [] (index e1 !! tok) ++ [i])
                     else index e1 !! tok)
  ∧ DocCount e2 = DocCount e1
  ∧ (DocCount e <= DocCount e2 <= DocCount e + 1)%nat.
Proof.
  intros Hr Hurl e1 e2.
  assert (Hnd : NoDup (URL <$> docs e)) by by apply reachable_URLs.
  assert (Hnd1 : NoDup (URL <$> docs e1)) by by apply AddDoc_URLs.
  assert (Hnd2 : NoDup (URL <$> docs e2)) by by apply AddDoc_URLs.
  assert (Hcnt : DocCount e2 = DocCount e1).
  { unfold e2. rewrite AddDoc_count. rewrite decide_True; [done|].
    rewrite <- Hurl. apply AddDoc_present. }
  split; [done|]. split; [done|]. split; [done|]. split.
  - destruct (AddDoc_slot e d1) as (i & Hfind & Hl). fold e1 in Hfind, Hl.
    exists i. split; [done|].
    rewrite Hurl in Hfind.
    destruct (AddDoc_replace e1 d2 i Hfind) as (Hd & Hix & _). fold e2 in Hd, Hix.
    split; [done|]. intros tok. rewrite Hix. apply reindexDoc_lookup.
  - split; [done|]. rewrite Hcnt. unfold e1. rewrite AddDoc_count.
    destruct (decide _); lia.
Qed.

Lemma C4_one_document_per_location_witness :
  DocCount (AddDoc (AddDoc NewEngine docRigid) docRigid')
  = DocCount (AddDoc NewEngine docRigid).
Proof.
  exact (proj1 (proj2 (proj2 (proj2 (proj2
    (C4_one_document_per_location NewEngine docRigid docRigid'
       reach_new eq_refl)))))).
Defined.

(** ** Duplicate postings *)

Example tokenize_ex :
  tokenize "Rigidbody2D is used for 2D physics, the A-b movement!"
  = ["rigidbody2d"; "2d"; "physics"; "movement"].
Proof. vm_compute. reflexivity. Qed.

(** C2, the code at the failing input: the same document upserted twice
    leaves slot 0 twice in the postings of its term. *)
Theorem C2_reupsert_duplicates_postings :
  index (AddDoc (AddDoc NewEngine docRigid) docRigid) !! "rigidbody" = Some [0; 0]%nat
  ∧ ¬ NoDup [0; 0]%nat.
Proof.
  split.
  - vm_compute. reflexivity.
  - intros H. apply NoDup_cons in H as [H _]. apply H. left.
Qed.

(** ** Strings: lengths and positions *)

Lemma ToLower_length s : String.length (ToLower s) = String.length s.
Proof. induction s as [|c s IH]; simpl; congruence. Qed.

Lemma from_length n : ∀ s, String.length (from n s) = (String.length s - n)%nat.
Proof.
  induction n as [|n IH]; intros s; simpl; [lia|].
  destruct s as [|c s]; simpl; [done|apply IH].
Qed.

Lemma upto_length n : ∀ s,
  (n <= String.length s)%nat → String.length (upto n s) = n.
Proof.
  induction n as [|n IH]; intros s H; simpl; [done|].
  destruct s as [|c s]; simpl in *; [lia|]. rewrite IH; [done|lia].
Qed.

Lemma HasPrefix_length s : ∀ pre,
  HasPrefix s pre = true → (String.length pre <= String.length s)%nat.
Proof.
  induction s as [|c s IH]; intros [|a pre] H; simpl in *; try lia; try done.
  destruct (decide (a = c)); [|done]. apply IH in H. lia.
Qed.

Lemma Index_unfold s sub :
  Index s sub
  = if HasPrefix s sub then Some 0%nat
    else match s with
         | EmptyString => None
         | String _ s' => S <$> Index s' sub
         end.
Proof. by destruct s. Qed.

Lemma Index_bound s : ∀ sub i,
  Index s sub = Some i → (i + String.length sub <= String.length s)%nat.
Proof.
  induction s as [|c s IH]; intros sub i H; rewrite Index_unfold in H;
    destruct (HasPrefix _ sub) eqn:Hp.
  - injection H as <-. apply HasPrefix_length in Hp. simpl in *. lia.
  - done.
  - injection H as <-. apply HasPrefix_length in Hp. simpl in *. lia.
  - destruct (Index s sub) as [j|] eqn:Hj; simpl in H; [|done].
    injection H as <-. apply IH in Hj. simpl. lia.
Qed.

(** The loop of [countOccurrences] ends for every token that is not empty:
    each turn moves [idx] forward by at least the length of the token. *)
Lemma countLoop_total tok lower :
  tok ≠ EmptyString →
  ∀ fuel idx count,
    (String.length lower - idx < fuel)%nat →
    is_Some (countLoop fuel tok lower idx count).
Proof.
  intros Htok. induction fuel as [|fuel IH]; intros idx count Hf; [lia|].
  simpl. destruct (Index (from idx lower) tok) as [i|] eqn:Hi; [|done].
  apply Index_bound in Hi. rewrite from_length in Hi.
  assert (1 <= String.length tok)%nat by (destruct tok; [done|simpl; lia]).
  apply IH. lia.
Qed.

Lemma countOccurrences_total tok text :
  tok ≠ EmptyString → is_Some (countOccurrences tok text).
Proof. intros H. apply countLoop_total; [done|lia]. Qed.

(** ** Postings stay in range *)

Lemma AddDoc_length e doc : (length (docs e) <= length (docs (AddDoc e doc)))%nat.
Proof.
  pose proof (AddDoc_count e doc) as H. unfold DocCount in H. rewrite H.
  destruct (decide _); lia.
Qed.

Lemma AddDoc_postingsInRange e doc :
  postingsInRange e → postingsInRange (AddDoc e doc).
Proof.
  intros Hin tok postings i Hl Hi.
  pose proof (AddDoc_length e doc) as Hlen.
  assert (Hcase : ∃ idx, (idx < length (docs (AddDoc e doc)))%nat
            ∧ index (AddDoc e doc) = index (reindexDoc e idx doc)).
  { destruct (findURL (URL doc) (docs e) 0) as [k|] eqn:H.
    - destruct (AddDoc_replace _ _ _ H) as (_ & Hix & Hlt).
      exists k. split; [lia|done].
    - destruct (AddDoc_append _ _ H) as (Hd & Hix).
      exists (length (docs e)). split; [|done].
      rewrite Hd, length_app. simpl. lia. }
  destruct Hcase as (idx & Hidx & Hix). rewrite Hix, reindexDoc_lookup in Hl.
  destruct (decide (tok ∈ tokenize (combined doc))).
  - injection Hl as <-. apply elem_of_app in Hi as [Hi|Hi].
    + destruct (index e !! tok) as [ps|] eqn:Hps; simpl in Hi.
      * specialize (Hin _ _ _ Hps Hi). lia.
      * by apply elem_of_nil in Hi.
    + apply list_elem_of_singleton in Hi. by subst.
  - specialize (Hin _ _ _ Hl Hi). lia.
Qed.

Lemma AddDoc_keysNonEmpty e doc : keysNonEmpty e → keysNonEmpty (AddDoc e doc).
Proof.
  intros Hk tok postings Hl.
  assert (Hcase : ∃ idx, index (AddDoc e doc) = index (reindexDoc e idx doc)).
  { unfold AddDoc. destruct (findURL (URL doc) (docs e) 0); eauto. }
  destruct Hcase as (idx & Hix). rewrite Hix, reindexDoc_lookup in Hl.
  destruct (decide (tok ∈ tokenize (combined doc))) as [Hin|Hin].
  - by apply tokenize_nonempty in Hin.
  - by apply Hk in Hl.
Qed.

Lemma reachable_postingsInRange e : reachable e → postingsInRange e.
Proof.
  induction 1 as [|e doc _ IH]; [|by apply AddDoc_postingsInRange].
  intros tok postings i H. simpl in H. by rewrite lookup_empty in H.
Qed.

Lemma reachable_keysNonEmpty e : reachable e → keysNonEmpty e.
Proof.
  induction 1 as [|e doc _ IH]; [|by apply AddDoc_keysNonEmpty].
  intros tok postings H. simpl in H. by rewrite lookup_empty in H.
Qed.

(** The loop over postings never indexes [e.docs] out of range when the
    postings are in range. *)
Lemma scorePostings_total e tok postings :
  tok ≠ EmptyString →
  (∀ i, i ∈ postings → (i < length (docs e))%nat) →
  ∀ scores idf avgLen k1 b boost,
    is_Some (scorePostings e tok postings scores idf avgLen k1 b boost).
Proof.
  intros Htok. induction postings as [|idx rest IH]; intros Hin scores idf avgLen k1 b boost.
  - done.
  - simpl. destruct (lookup_lt_is_Some_2 (docs e) idx) as [doc Hdoc].
    { apply Hin. left. }
    rewrite Hdoc. simpl.
    destruct (countOccurrences_total tok (docText doc) Htok) as [tf Htf].
    rewrite Htf. simpl. apply IH. intros i Hi. apply Hin. by right.
Qed.

Lemma scoreToken_total e tok queryTokens scores N avgLen k1 b boost :
  postingsInRange e → keysNonEmpty e →
  is_Some (scoreToken e tok queryTokens scores N avgLen k1 b boost).
Proof.
  intros Hr Hk. unfold scoreToken.
  destruct (index e !! tok) as [postings|] eqn:Hp; [|done].
  apply scorePostings_total; [by eapply Hk|]. intros i Hi. by eapply Hr.
Qed.

(** C10. In every reachable engine each posting is a slot of the store,
    the store never shrinks, and the lookups [e.docs[idx]] of [scoreToken]
    stay in bounds: the call returns. *)
Theorem C10_postings_are_valid_slots e :
  reachable e →
  (∀ tok postings i,
     index e !! tok = Some postings → i ∈ postings →
     (0 <= i < length (docs e))%nat ∧ is_Some (docs e !! i))
  ∧ (∀ doc, (DocCount e <= DocCount (AddDoc e doc))%nat)
  ∧ (∀ tok queryTokens scores N avgLen k1 b boost,
       is_Some (scoreToken e tok queryTokens scores N avgLen k1 b boost)).
Proof.
  intros Hr.
  pose proof (reachable_postingsInRange e Hr) as Hin.
  pose proof (reachable_keysNonEmpty e Hr) as Hk.
  split; [|split].
  - intros tok postings i Hl Hi. specialize (Hin _ _ _ Hl Hi).
    split; [lia|]. by apply lookup_lt_is_Some_2.
  - intros doc. apply AddDoc_length.
  - intros. by apply scoreToken_total.
Qed.

Lemma C10_postings_are_valid_slots_witness :
  is_Some (scoreToken (AddDoc (AddDoc NewEngine docRigid) docRigid')
             "rigidbody" ["rigidbody"] ∅ 1 2 1.5 0.75 1.0).
Proof.
  exact (proj2 (proj2 (C10_postings_are_valid_slots
    (AddDoc (AddDoc NewEngine docRigid) docRigid')
    (reach_add _ _ (reach_add _ _ reach_new))))
    "rigidbody" ["rigidbody"] ∅ 1 2 1.5 0.75 1.0).
Defined.

(** ** Excerpts *)

Lemma string_app_empty_r (s : string) : s +:+ EmptyString = s.
Proof.
  induction s as [|c s IH]; [done|].
  change (String c (s +:+ EmptyString) = String c s). congruence.
Qed.

Lemma string_app_assoc (s t u : string) : (s +:+ t) +:+ u = s +:+ (t +:+ u).
Proof.
  induction s as [|c s IH]; [done|].
  change (String c ((s +:+ t) +:+ u) = String c (s +:+ (t +:+ u))). congruence.
Qed.

Lemma wrap64_small z : (- 2 ^ 63 <= z < 2 ^ 63)%Z → wrap64 z = z.
Proof. intros H. unfold wrap64. rewrite Z.mod_small; lia. Qed.

(** In the loop the window never needs clamping: it is [lower[i:i+200]]. *)
Lemma window_slice lower i :
  (i + windowSize < String.length lower)%nat →
  slice lower i
    (if (String.length lower <? i + windowSize)%nat
     then String.length lower else i + windowSize)
  = Some (windowAt lower i).
Proof.
  intros H. destruct (String.length lower <? i + windowSize)%nat eqn:Hc.
  { apply Nat.ltb_lt in Hc. lia. }
  unfold slice. rewrite decide_True by lia.
  unfold windowAt. do 2 f_equal. lia.
Qed.

Lemma bestSoFar_step lower tokens k bp bh :
  (50 * k + windowSize < String.length lower)%nat →
  bestSoFar lower tokens k bp bh →
  let hits := hitsAt lower tokens (50 * k) in
  if (bh <? hits)%nat then bestSoFar lower tokens (S k) (50 * k) hits
  else bestSoFar lower tokens (S k) bp bh.
Proof.
  intros Hv Hinv hits. destruct (bh <? hits)%nat eqn:Hc.
  - apply Nat.ltb_lt in Hc. right. exists k.
    split; [lia|]. split; [done|]. split; [done|]. split; [done|]. split; [lia|].
    destruct Hinv as [(-> & -> & Hz)|(kb & Hkb & -> & Hvb & -> & Hpos & Hle & Hlt)].
    + split; intros j Hj.
      * destruct (decide (j = k)) as [->|Hne]; [done|]. rewrite Hz; lia.
      * rewrite Hz; [done|lia].
    + split; intros j Hj.
      * destruct (decide (j = k)) as [->|Hne]; [done|].
        specialize (Hle j). lia.
      * specialize (Hle j). lia.
  - apply Nat.ltb_ge in Hc.
    destruct Hinv as [(-> & -> & Hz)|(kb & Hkb & -> & Hvb & -> & Hpos & Hle & Hlt)].
    + left. split; [done|]. split; [done|]. intros j Hj.
      destruct (decide (j = k)) as [->|Hne]; [fold hits; lia|]. apply Hz. lia.
    + right. exists kb. split; [lia|]. split; [done|]. split; [done|].
      split; [done|]. split; [done|]. split; [|done]. intros j Hj.
      destruct (decide (j = k)) as [->|Hne]; [done|]. apply Hle. lia.
Qed.

(** The window loop ends within its fuel and keeps [bestSoFar]. *)
Lemma windowLoop_spec lower tokens : ∀ fuel k bp bh,
  (String.length lower - 50 * k < fuel)%nat →
  bestSoFar lower tokens k bp bh →
  ∃ bp' bh' K,
    windowLoop fuel lower tokens (50 * k) bp bh = Some (bp', bh')
    ∧ bestSoFar lower tokens K bp' bh'
    ∧ ¬ (50 * K + windowSize < String.length lower)%nat.
Proof.
  induction fuel as [|fuel IH]; intros k bp bh Hf Hinv; [lia|].
  cbn [windowLoop].
  destruct (50 * k + windowSize <? String.length lower)%nat eqn:Hc.
  - apply Nat.ltb_lt in Hc. rewrite window_slice by done. cbn [mbind option_bind].
    pose proof (bestSoFar_step _ _ _ _ _ Hc Hinv) as Hstep. cbv zeta in Hstep.
    fold (hitsAt lower tokens (50 * k)).
    replace (50 * k + 50)%nat with (50 * S k)%nat by lia.
    unfold windowSize in Hc.
    destruct (bh <? hitsAt lower tokens (50 * k))%nat; apply IH; try done; lia.
  - apply Nat.ltb_ge in Hc. exists bp, bh, k. split; [done|]. split; [done|lia].
Qed.

Lemma bestSoFar_final lower tokens K bp bh :
  bestSoFar lower tokens K bp bh →
  ¬ (50 * K + windowSize < String.length lower)%nat →
  firstBest lower tokens bp.
Proof.
  intros Hinv Hend.
  assert (Hvis : ∀ i, visited lower i → ∃ j, i = (50 * j)%nat ∧ (j < K)%nat).
  { intros i (j & -> & Hj). exists j. split; [done|]. lia. }
  destruct Hinv as [(-> & -> & Hz)|(kb & Hkb & -> & Hvb & -> & Hpos & Hle & Hlt)].
  - left. split; [done|]. intros i Hi.
    destruct (Hvis i Hi) as (j & -> & Hj). by apply Hz.
  - right. split; [by exists kb|]. split; [done|]. split.
    + intros i Hi. destruct (Hvis i Hi) as (j & -> & Hj). by apply Hle.
    + intros i Hi Hlt'. destruct (Hvis i Hi) as (j & -> & Hj). apply Hlt. lia.
Qed.

Lemma firstBest_position lower tokens bp :
  firstBest lower tokens bp →
  bp = 0%nat ∨ (∃ k, bp = (50 * k)%nat ∧ (bp + windowSize < String.length lower)%nat).
Proof. intros [(-> & _)|(Hv & _)]; [by left|by right]. Qed.

(** The run of [extractExcerpt] on a text that is not empty. *)
Lemma extractExcerpt_run content tokens maxLen :
  content ≠ EmptyString →
  (0 <= maxLen)%Z →
  (Z.of_nat (String.length content) + maxLen < 2 ^ 63)%Z →
  ∃ bestPos,
    firstBest (ToLower content) tokens bestPos
    ∧ extractExcerpt content tokens maxLen
      = Some (excerptFrom content
                (if (50 <? bestPos)%nat then bestPos - 50 else bestPos)%nat
                (Z.to_nat maxLen)).
Proof.
  intros Hne Hmax Hrange.
  assert (Hlen : (0 < String.length content)%nat).
  { destruct content; [done|simpl; lia]. }
  destruct (windowLoop_spec (ToLower content) tokens
              (S (String.length (ToLower content))) 0 0 0)
    as (bp & bh & K & Hrun & Hinv & Hend).
  { lia. }
  { left. split; [done|]. split; [done|]. intros j Hj. lia. }
  pose proof (bestSoFar_final _ _ _ _ _ Hinv Hend) as Hbest.
  exists bp. split; [done|].
  unfold extractExcerpt.
  destruct (String.length content =? 0)%nat eqn:H0.
  { apply Nat.eqb_eq in H0. lia. }
  change (50 * 0)%nat with 0%nat in Hrun. rewrite Hrun. cbn [mbind option_bind].
  set (start := (if (50 <? bp)%nat then bp - 50 else bp)%nat).
  assert (Hstart : (start < String.length content)%nat).
  { destruct (firstBest_position _ _ _ Hbest) as [->|(k & -> & Hk)].
    - subst start. simpl. lia.
    - rewrite ToLower_length in Hk. subst start.
      destruct (50 <? 50 * k)%nat; lia. }
  rewrite wrap64_small by lia.
  set (end_ := if (Z.of_nat (String.length content) <? Z.of_nat start + maxLen)%Z
               then Z.of_nat (String.length content) else (Z.of_nat start + maxLen)%Z).
  assert (Hend_ : Z.to_nat end_
                  = Nat.min (start + Z.to_nat maxLen) (String.length content)).
  { subst end_. destruct (Z.ltb_spec (Z.of_nat (String.length content))
                            (Z.of_nat start + maxLen)); lia. }
  assert (Hend0 : (0 <= end_)%Z).
  { subst end_. destruct (_ <? _)%Z; lia. }
  destruct (end_ <? 0)%Z eqn:Hneg; [apply Z.ltb_lt in Hneg; lia|].
  unfold slice. rewrite decide_True by lia. cbn [mbind option_bind].
  unfold excerptFrom. rewrite <- Hend_. cbv zeta.
  replace (end_ <? Z.of_nat (String.length content))%Z
    with (Z.to_nat end_ <? String.length content)%nat.
  2:{ destruct (Nat.ltb_spec (Z.to_nat end_) (String.length content));
      destruct (Z.ltb_spec end_ (Z.of_nat (String.length content))); try done; lia. }
  f_equal.
  destruct (0 <? start)%nat; destruct (Z.to_nat end_ <? String.length content)%nat;
    simpl; rewrite ?string_app_empty_r, ?string_app_assoc; done.
Qed.




(** ** Loading the cache *)

(** C8. When [LoadCache] reports an error the engine is the one it was
    given: the error is the one of reading or of decoding, both of which
    come before the first [AddDoc]. *)
Theorem C8_failed_load_keeps_state {error : Type}
    (ReadFile : string → error + string) (Unmarshal : string → error + list Doc)
    (e e' : Engine) (path : string) (err : error) :
  LoadCache ReadFile Unmarshal e path = (e', Some err) →
  e' = e
  ∧ docs e' = docs e ∧ index e' = index e
  ∧ (ReadFile path = inl err
     ∨ ∃ data, ReadFile path = inr data ∧ Unmarshal data = inl err).
Proof.
  unfold LoadCache. intros H.
  destruct (ReadFile path) as [err1|data] eqn:Hread.
  - injection H as <- <-. by repeat split; [..|left].
  - destruct (Unmarshal data) as [err2|cfDocs] eqn:Hparse; [|done].
    injection H as <- <-. repeat split; try done. right. by exists data.
Qed.

Lemma C8_failed_load_keeps_state_witness :
  LoadCache sampleFile brokenDecoder (AddDoc NewEngine docRigid) "cache/docs_index.json"
  = (AddDoc NewEngine docRigid, Some "unexpected end of JSON input")
  ∧ (sampleFile "cache/docs_index.json" = inl "unexpected end of JSON input"
     ∨ ∃ data, sampleFile "cache/docs_index.json" = inr data
               ∧ brokenDecoder data = inl "unexpected end of JSON input").
Proof.
  split; [reflexivity|].
  exact (proj2 (proj2 (proj2
    (C8_failed_load_keeps_state sampleFile brokenDecoder
       (AddDoc NewEngine docRigid) (AddDoc NewEngine docRigid)
       "cache/docs_index.json" "unexpected end of JSON input" eq_refl)))).
Defined.

(** ** Score maps *)

Lemma lookup_bump scores i v j :
  bump scores i v !! j
  = if decide (i = j) then Some (scoreOf scores i + v) else scores !! j.
Proof.
  unfold bump, scoreOf. destruct (decide (i = j)) as [->|Hne].
  - by rewrite lookup_insert_eq.
  - by rewrite lookup_insert_ne.
Qed.

Lemma scoreOf_bump scores i v j :
  scoreOf (bump scores i v) j
  = if decide (i = j) then scoreOf scores j + v else scoreOf scores j.
Proof.
  unfold scoreOf at 1. rewrite lookup_bump.
  destruct (decide (i = j)) as [->|Hne]; done.
Qed.

Lemma dom_bump scores i v : dom (bump scores i v) = {[i]} ∪ dom scores.
Proof. unfold bump. apply dom_insert_L. Qed.

Lemma bump_comm scores i v j w :
  bump (bump scores i v) j w = bump (bump scores j w) i v.
Proof.
  apply map_eq. intros k. rewrite !lookup_bump, !scoreOf_bump.
  destruct (decide (j = k)) as [->|Hjk]; destruct (decide (i = k)) as [->|Hik];
    try done.
  all: rewrite ?decide_True, ?decide_False by done; try done.
  f_equal. lra.
Qed.

(** ** One call of [scoreToken] *)

Lemma scorePostings_spec e tok idf avgLen k1 b boost postings :
  ∀ scores scores',
    scorePostings e tok postings scores idf avgLen k1 b boost = Some scores' →
    dom scores' = list_to_set postings ∪ dom scores
    ∧ ∀ idx, scoreOf scores' idx
             = scoreOf scores idx
               + INR (count_occ Nat.eq_dec postings idx)
                 * perPosting e tok idf avgLen k1 b boost idx.
Proof.
  induction postings as [|i rest IH]; intros scores scores' H; simpl in H.
  - injection H as <-. split; [set_solver|]. intros idx. simpl. lra.
  - destruct (docs e !! i) as [doc|] eqn:Hdoc; simpl in H; [|done].
    destruct (countOccurrences tok (docText doc)) as [tf|] eqn:Htf; simpl in H; [|done].
    apply IH in H as [Hdom Hval]. split.
    + rewrite Hdom, dom_bump. set_solver.
    + intros idx. rewrite Hval, scoreOf_bump. cbn [count_occ].
      destruct (decide (i = idx)) as [->|Hne].
      * destruct (Nat.eq_dec idx idx) as [_|Hn]; [|done].
        rewrite S_INR. unfold perPosting. rewrite Hdoc, Htf. lra.
      * destruct (Nat.eq_dec i idx) as [Heq|_]; [done|]. lra.
Qed.

Lemma scoreToken_spec e tok queryTokens scores scores' N avgLen boost :
  scoreToken e tok queryTokens scores N avgLen 1.5 0.75 boost = Some scores' →
  dom scores' = list_to_set (default [] (index e !! tok)) ∪ dom scores
  ∧ ∀ idx, scoreOf scores' idx = scoreOf scores idx + termScore e tok N avgLen boost idx.
Proof.
  unfold scoreToken, termScore. intros H.
  destruct (index e !! tok) as [postings|] eqn:Hp.
  - by apply scorePostings_spec in H.
  - injection H as <-. split; [set_solver|]. intros idx. lra.
Qed.

Lemma scoreToken_dom e tok queryTokens scores scores' N avgLen boost idx :
  scoreToken e tok queryTokens scores N avgLen 1.5 0.75 boost = Some scores' →
  idx ∈ dom scores' ↔ idx ∈ dom scores ∨ idx ∈ postingsOf e tok.
Proof.
  intros H. apply scoreToken_spec in H as [Hdom _]. rewrite Hdom.
  unfold postingsOf. rewrite elem_of_union, elem_of_list_to_set. tauto.
Qed.

(** ** The passes of [Search] *)

Lemma prefixLoop_spec e t tokens N avgLen keys :
  ∀ scores scores',
    prefixLoop e t tokens keys scores N avgLen = Some scores' →
    (∀ idx, idx ∈ dom scores'
            ↔ idx ∈ dom scores
              ∨ ∃ u, u ∈ keys ∧ prefixMatch t u = true ∧ idx ∈ postingsOf e u)
    ∧ ∀ idx, scoreOf scores' idx = scoreOf scores idx + prefixScore e t keys N avgLen idx.
Proof.
  induction keys as [|u rest IH]; intros scores scores' H; simpl in H.
  - injection H as <-. split.
    + intros idx. split; [by left|]. intros [H|(u & Hu & _)]; [done|].
      by apply elem_of_nil in Hu.
    + intros idx. unfold prefixScore. simpl. lra.
  - destruct (prefixMatch t u) eqn:Hm.
    + destruct (scoreToken e u tokens scores N avgLen 1.5 0.75 0.7) as [s1|] eqn:H1;
        simpl in H; [|done].
      apply IH in H as [Hdom Hval]. split.
      * intros idx. rewrite Hdom, (scoreToken_dom _ _ _ _ _ _ _ _ idx H1). split.
        -- intros [[H|H]|(u' & Hu' & Hm' & Hi)]; [by left|right..].
           ++ exists u. split; [left|done].
           ++ exists u'. split; [by right|done].
        -- intros [H|(u' & Hu' & Hm' & Hi)]; [by left; left|].
           apply elem_of_cons in Hu' as [->|Hu']; [by left; right|].
           right. by exists u'.
      * intros idx. rewrite Hval. apply scoreToken_spec in H1 as [_ H1].
        rewrite H1. unfold prefixScore. simpl. rewrite Hm. lra.
    + apply IH in H as [Hdom Hval]. split.
      * intros idx. rewrite Hdom. split.
        -- intros [H|(u' & Hu' & Hm' & Hi)]; [by left|right].
           exists u'. split; [by right|done].
        -- intros [H|(u' & Hu' & Hm' & Hi)]; [by left|].
           apply elem_of_cons in Hu' as [->|Hu']; [congruence|].
           right. by exists u'.
      * intros idx. rewrite Hval. unfold prefixScore. simpl. rewrite Hm. lra.
Qed.

Lemma tokenLoop_spec e tokens N avgLen todo :
  ∀ scores scores',
    tokenLoop e todo tokens scores N avgLen = Some scores' →
    (∀ idx, idx ∈ dom scores'
            ↔ idx ∈ dom scores
              ∨ ∃ t, t ∈ todo
                     ∧ (idx ∈ postingsOf e t
                        ∨ ∃ u, u ∈ indexKeys e ∧ prefixMatch t u = true
                               ∧ idx ∈ postingsOf e u))
    ∧ ∀ idx, scoreOf scores' idx
             = scoreOf scores idx
               + sumOver (λ t, termScore e t N avgLen 1.0 idx
                               + prefixScore e t (indexKeys e) N avgLen idx) todo.
Proof.
  induction todo as [|t rest IH]; intros scores scores' H; simpl in H.
  - injection H as <-. split.
    + intros idx. split; [by left|]. intros [H|(t & Ht & _)]; [done|].
      by apply elem_of_nil in Ht.
    + intros idx. simpl. lra.
  - destruct (scoreToken e t tokens scores N avgLen 1.5 0.75 1.0) as [s1|] eqn:H1;
      simpl in H; [|done].
    destruct (prefixLoop e t tokens (indexKeys e) s1 N avgLen) as [s2|] eqn:H2;
      simpl in H; [|done].
    apply IH in H as [Hdom Hval].
    apply prefixLoop_spec in H2 as [Hdom2 Hval2]. split.
    + intros idx.
      rewrite Hdom, Hdom2, (scoreToken_dom _ _ _ _ _ _ _ _ idx H1). split.
      * intros [[[H|H]|H]|(t' & Ht' & H)].
        -- by left.
        -- right. exists t. split; [left|by left].
        -- right. exists t. split; [left|by right].
        -- right. exists t'. split; [by right|done].
      * intros [H|(t' & Ht' & H)]; [by left; left; left|].
        apply elem_of_cons in Ht' as [->|Ht'].
        -- destruct H as [H|H]; [by left; left; right|by left; right].
        -- right. by exists t'.
    + intros idx. rewrite Hval, Hval2. apply scoreToken_spec in H1 as [_ H1].
      rewrite H1. simpl. lra.
Qed.

Lemma titleHits_cons titleLower tok rest :
  titleHits titleLower (tok :: rest)
  = if Contains titleLower tok
    then S (titleHits titleLower rest) else titleHits titleLower rest.
Proof.
  unfold titleHits. rewrite filter_cons.
  destruct (Contains titleLower tok) eqn:Hc.
  - rewrite decide_True by done. done.
  - rewrite decide_False by done. done.
Qed.

Lemma titleHits_pos titleLower tokens :
  (0 < titleHits titleLower tokens)%nat
  ↔ ∃ t, t ∈ tokens ∧ Contains titleLower t = true.
Proof.
  induction tokens as [|tok rest IH].
  - split; [unfold titleHits; rewrite filter_nil; simpl; lia|].
    intros (t & Ht & _). by apply elem_of_nil in Ht.
  - rewrite titleHits_cons. destruct (Contains titleLower tok) eqn:Hc.
    + split; [|lia]. intros _. exists tok. split; [left|done].
    + rewrite IH. split.
      * intros (t & Ht & Hct). exists t. split; [by right|done].
      * intros (t & Ht & Hct). apply elem_of_cons in Ht as [->|Ht]; [congruence|].
        by exists t.
Qed.

Lemma titleBoost_spec titleLower idx tokens :
  ∀ scores,
    (∀ j, j ∈ dom (titleBoost titleLower tokens scores idx)
          ↔ j ∈ dom scores ∨ (j = idx ∧ (0 < titleHits titleLower tokens)%nat))
    ∧ ∀ j, scoreOf (titleBoost titleLower tokens scores idx) j
           = scoreOf scores j
             + (if decide (idx = j) then 2.0 * INR (titleHits titleLower tokens) else 0).
Proof.
  unfold titleBoost. induction tokens as [|tok rest IH]; intros scores.
  - assert (H0 : titleHits titleLower [] = 0%nat) by done.
    rewrite H0. simpl. split.
    + intros j. split; [by left|]. intros [H|[_ H]]; [done|lia].
    + intros j. destruct (decide (idx = j)); lra.
  - cbn [fold_left]. rewrite titleHits_cons.
    destruct (Contains titleLower tok) eqn:Hc.
    + destruct (IH (bump scores idx 2.0)) as [Hdom Hval]. split.
      * intros j. rewrite Hdom, dom_bump, elem_of_union, elem_of_singleton. split.
        -- intros [[->|H]|[-> H]]; [right; split; [done|lia]|by left|right; split; [done|lia]].
        -- intros [H|[-> H]]; [by left; right|by left; left].
      * intros j. rewrite Hval, scoreOf_bump, S_INR.
        destruct (decide (idx = j)); lra.
    + apply IH.
Qed.

Lemma titleLoop_spec tokens ds :
  ∀ base scores,
    (∀ j, j ∈ dom (titleLoop ds base tokens scores)
          ↔ j ∈ dom scores
            ∨ ∃ doc, (base <= j)%nat ∧ ds !! (j - base)%nat = Some doc
                     ∧ (0 < titleHits (ToLower (Title doc)) tokens)%nat)
    ∧ ∀ j, scoreOf (titleLoop ds base tokens scores) j
           = scoreOf scores j
             + (if decide (base <= j)%nat then
                  match ds !! (j - base)%nat with
                  | Some doc => 2.0 * INR (titleHits (ToLower (Title doc)) tokens)
                  | None => 0
                  end
                else 0).
Proof.
  induction ds as [|doc rest IH]; intros base scores; cbn [titleLoop].
  - split.
    + intros j. split; [by left|]. intros [H|(doc & _ & H & _)]; done.
    + intros j. rewrite lookup_nil. destruct (decide (base <= j)%nat); lra.
  - destruct (IH (S base) (titleBoost (ToLower (Title doc)) tokens scores base))
      as [Hdom Hval].
    destruct (titleBoost_spec (ToLower (Title doc)) base tokens scores) as [Hd1 Hv1].
    split.
    + intros j. rewrite Hdom, Hd1. split.
      * intros [[H|[-> H]]|(d & Hle & Hl & Hh)].
        -- by left.
        -- right. exists doc. rewrite Nat.sub_diag. done.
        -- right. exists d. split; [lia|]. split; [|done].
           replace (j - base)%nat with (S (j - S base)) by lia. done.
      * intros [H|(d & Hle & Hl & Hh)]; [by left; left|].
        destruct (decide (j = base)) as [->|Hne].
        -- rewrite Nat.sub_diag in Hl. injection Hl as <-. left. by right.
        -- right. exists d. split; [lia|]. split; [|done].
           replace (j - base)%nat with (S (j - S base)) in Hl by lia. done.
    + intros j. rewrite Hval, Hv1.
      destruct (decide (base = j)) as [->|Hne].
      * rewrite Nat.sub_diag. rewrite decide_False by lia.
        rewrite decide_True by lia. simpl. lra.
      * destruct (decide (S base <= j)%nat) as [Hle|Hle].
        -- rewrite decide_True by lia.
           replace (j - base)%nat with (S (j - S base)) by lia. simpl. lra.
        -- rewrite decide_False by lia. lra.
Qed.

Lemma prefixLoop_total e t tokens N avgLen keys :
  postingsInRange e → keysNonEmpty e →
  ∀ scores, is_Some (prefixLoop e t tokens keys scores N avgLen).
Proof.
  intros Hr Hk. induction keys as [|u rest IH]; intros scores; simpl; [done|].
  destruct (prefixMatch t u); [|apply IH].
  destruct (scoreToken_total e u tokens scores N avgLen 1.5 0.75 0.7 Hr Hk) as [s1 H1].
  rewrite H1. simpl. apply IH.
Qed.

Lemma tokenLoop_total e tokens N avgLen todo :
  postingsInRange e → keysNonEmpty e →
  ∀ scores, is_Some (tokenLoop e todo tokens scores N avgLen).
Proof.
  intros Hr Hk. induction todo as [|t rest IH]; intros scores; simpl; [done|].
  destruct (scoreToken_total e t tokens scores N avgLen 1.5 0.75 1.0 Hr Hk) as [s1 H1].
  rewrite H1. simpl.
  destruct (prefixLoop_total e t tokens N avgLen (indexKeys e) Hr Hk s1) as [s2 H2].
  rewrite H2. simpl. apply IH.
Qed.

(** The score map of a query: it is produced, its entries are the
    candidate slots, all of them slots of the store, and the entry of a slot
    is its [totalScore]. *)
Lemma searchScores_spec e tokens :
  postingsInRange e → keysNonEmpty e →
  ∃ scores,
    searchScores e tokens = Some scores
    ∧ (∀ idx, idx ∈ dom scores ↔ candidate e tokens idx)
    ∧ (∀ idx, idx ∈ dom scores → (idx < length (docs e))%nat)
    ∧ (∀ idx, scoreOf scores idx = totalScore e tokens idx).
Proof.
  intros Hr Hk. unfold searchScores.
  destruct (tokenLoop_total e tokens (INR (length (docs e))) (avgDocLen e) tokens Hr Hk ∅)
    as [s1 H1].
  rewrite H1. cbn [mbind option_bind]. eexists. split; [done|].
  apply tokenLoop_spec in H1 as [Hdom1 Hval1].
  destruct (titleLoop_spec tokens (docs e) 0%nat s1) as [Hdom2 Hval2].
  assert (Hcand : ∀ idx, idx ∈ dom (titleLoop (docs e) 0 tokens s1) ↔ candidate e tokens idx).
  { intros idx. rewrite Hdom2, Hdom1. unfold candidate. rewrite dom_empty_L.
    rewrite Nat.sub_0_r. split.
    - intros [[H|H]|(doc & _ & Hl & Hh)]; [set_solver|by left|right].
      apply titleHits_pos in Hh as (t & Ht & Hc). by exists doc, t.
    - intros [H|(doc & t & Hl & Ht & Hc)]; [by left; right|right].
      exists doc. split; [lia|]. split; [done|]. apply titleHits_pos. by exists t. }
  split; [done|]. split.
  - intros idx Hin. apply Hcand in Hin as [(t & Ht & [H|(u & _ & _ & H)])|(doc & t & Hl & _)].
    + unfold postingsOf in H. destruct (index e !! t) as [ps|] eqn:Hp; simpl in H.
      * by eapply Hr.
      * by apply elem_of_nil in H.
    + unfold postingsOf in H. destruct (index e !! u) as [ps|] eqn:Hp; simpl in H.
      * by eapply Hr.
      * by apply elem_of_nil in H.
    + by apply lookup_lt_Some in Hl.
  - intros idx. rewrite Hval2, Hval1. unfold totalScore, titleScore, scoreOf.
    rewrite lookup_empty, Nat.sub_0_r. rewrite decide_True by lia.
    cbn [default]. lra.
Qed.

(** ** The insertion sort *)

Lemma sift_perm x before : sift x before ≡ₚ x :: before.
Proof.
  induction before as [|p rest IH]; simpl; [done|].
  destruct (Rgt_dec (sd_score x) (sd_score p)); [|done].
  rewrite IH. apply Permutation_swap.
Qed.

Lemma sift_ascending x before : ascending before → ascending (sift x before).
Proof.
  unfold ascending. induction before as [|p rest IH]; intros Hs; simpl.
  - repeat constructor.
  - apply StronglySorted_inv in Hs as [Hrest Hp].
    destruct (Rgt_dec (sd_score x) (sd_score p)) as [Hgt|Hle].
    + constructor; [by apply IH|].
      rewrite sift_perm. constructor; [lra|done].
    + constructor; [by constructor|]. constructor; [lra|].
      eapply Forall_impl; [exact Hp|]. intros a Ha. simpl in *. lra.
Qed.

Lemma insertion_ascending ranked : ∀ before,
  ascending before → ascending (fold_left (λ before x, sift x before) ranked before).
Proof.
  induction ranked as [|x rest IH]; intros before Hs; simpl; [done|].
  apply IH. by apply sift_ascending.
Qed.

Lemma insertion_perm ranked : ∀ before,
  fold_left (λ before x, sift x before) ranked before ≡ₚ before ++ ranked.
Proof.
  induction ranked as [|x rest IH]; intros before; simpl.
  - by rewrite app_nil_r.
  - rewrite IH, sift_perm. simpl. apply Permutation_middle.
Qed.

Lemma insertionSort_perm ranked : insertionSort ranked ≡ₚ ranked.
Proof.
  unfold insertionSort. rewrite <- Permutation_rev. by rewrite insertion_perm.
Qed.

Lemma StronglySorted_snoc {A} (rel : A → A → Prop) l a :
  StronglySorted rel l → Forall (λ b, rel b a) l → StronglySorted rel (l ++ [a]).
Proof.
  induction l as [|b l IH]; intros Hs Hall; simpl.
  - repeat constructor.
  - apply StronglySorted_inv in Hs as [Hl Hb].
    apply Forall_cons in Hall as [Hba Hall].
    constructor; [by apply IH|]. apply Forall_app. split; [done|].
    by constructor.
Qed.

Lemma ascending_rev l : ascending l → descending (rev l).
Proof.
  unfold ascending, descending. induction l as [|a l IH]; intros Hs; simpl.
  - constructor.
  - apply StronglySorted_inv in Hs as [Hl Ha].
    apply StronglySorted_snoc; [by apply IH|].
    apply Forall_forall. intros b Hb. rewrite Forall_forall in Ha.
    apply Ha. apply list_elem_of_In, in_rev, list_elem_of_In. done.
Qed.

(** The insertion sort orders the array by decreasing score and loses no
    entry. *)
Lemma insertionSort_descending ranked : descending (insertionSort ranked).
Proof.
  unfold insertionSort. apply ascending_rev. apply insertion_ascending. constructor.
Qed.

(** ** Building the results *)

Lemma extractExcerpt_300 content tokens :
  (Z.of_nat (String.length content) + 300 < 2 ^ 63)%Z →
  is_Some (extractExcerpt content tokens 300).
Proof.
  intros Hsize. destruct (decide (content = EmptyString)) as [->|Hne]; [done|].
  destruct (extractExcerpt_run content tokens 300 Hne) as (bp & _ & ->); [lia|done|done].
Qed.

Lemma buildResults_spec e tokens topK maxScore ranked :
  goSized e →
  ∀ i acc,
    (∀ sd, sd ∈ ranked → (sd_idx sd < length (docs e))%nat) →
    ∃ rs,
      buildResults e tokens topK maxScore i ranked acc = Some (acc ++ rs)
      ∧ Forall2 (resultFor e tokens maxScore)
          (take (Z.to_nat (topK - Z.of_nat i)) ranked) rs.
Proof.
  intros Hsize. induction ranked as [|sd rest IH]; intros i acc Hin; cbn [buildResults].
  - exists []. rewrite app_nil_r, take_nil. split; [done|constructor].
  - destruct (Z.leb_spec topK (Z.of_nat i)) as [Hle|Hlt].
    + exists []. rewrite app_nil_r. split; [done|].
      replace (Z.to_nat (topK - Z.of_nat i)) with 0%nat by lia. constructor.
    + destruct (lookup_lt_is_Some_2 (docs e) (sd_idx sd)) as [doc Hdoc].
      { apply Hin. left. }
      rewrite Hdoc. cbn [mbind option_bind].
      destruct (extractExcerpt_300 (Content doc) tokens) as [ex Hex].
      { apply Hsize. apply list_elem_of_lookup. by exists (sd_idx sd). }
      rewrite Hex. cbn [mbind option_bind].
      edestruct (IH (S i)) as (rs & Hrun & Hrs).
      { intros sd' Hsd'. apply Hin. by right. }
      eexists (_ :: rs). split.
      * rewrite Hrun. by rewrite <- app_assoc.
      * replace (Z.to_nat (topK - Z.of_nat i))
          with (S (Z.to_nat (topK - Z.of_nat (S i)))) by lia.
        cbn [take]. constructor; [|done].
        exists doc. by repeat split.
Qed.

(** ** One run of [Search] *)

Lemma collect_elem visit sd : sd ∈ collect visit ↔ (sd_idx sd, sd_score sd) ∈ visit.
Proof.
  unfold collect. rewrite list_elem_of_In, in_map_iff. split.
  - intros ([i s] & <- & Hin). by apply list_elem_of_In.
  - intros Hin. exists (sd_idx sd, sd_score sd). destruct sd.
    split; [done|]. by apply list_elem_of_In.
Qed.

(** A run of [Search] on a store with documents and a query with tokens:
    the array [ranked] holds the entries of the score map, all of them, by
    decreasing score, and the results are built from its first [topK]. *)
Lemma Search_run e pick query topK :
  postingsInRange e → keysNonEmpty e → goSized e → admissible pick →
  (0 <= topK)%Z →
  docs e ≠ [] → tokenize query ≠ [] →
  let tokens := tokenize query in
  ∃ scores ranked results,
    searchScores e tokens = Some scores
    ∧ ranked = insertionSort (collect (pick scores))
    ∧ (∀ sd, sd ∈ ranked ↔ scores !! sd_idx sd = Some (sd_score sd))
    ∧ descending ranked
    ∧ Search pick e query topK = Some results
    ∧ Forall2 (resultFor e tokens (match ranked with [] => 0 | sd :: _ => sd_score sd end))
        (take (Z.to_nat topK) ranked) results.
Proof.
  intros Hr Hk Hsize Hpick HtopK Hdocs Htoks tokens.
  destruct (searchScores_spec e tokens Hr Hk) as (scores & Hsc & Hdom & Hrange & Hval).
  set (ranked := insertionSort (collect (pick scores))).
  assert (Helem : ∀ sd, sd ∈ ranked ↔ scores !! sd_idx sd = Some (sd_score sd)).
  { intros sd. unfold ranked. rewrite insertionSort_perm, collect_elem.
    rewrite (Hpick scores). apply elem_of_map_to_list. }
  destruct (buildResults_spec e tokens topK
              (match ranked with [] => 0 | sd :: _ => sd_score sd end)
              ranked Hsize 0%nat []) as (rs & Hrun & Hrs).
  { intros sd Hsd. apply Hrange. apply elem_of_dom. apply Helem in Hsd. by eexists. }
  exists scores, ranked, rs. split; [done|]. split; [done|]. split; [done|].
  split; [apply insertionSort_descending|]. split.
  - unfold Search.
    destruct (length (docs e) =? 0)%nat eqn:Hd.
    { apply Nat.eqb_eq in Hd. by apply nil_length_inv in Hd. }
    fold tokens. destruct (length tokens =? 0)%nat eqn:Ht.
    { apply Nat.eqb_eq in Ht. by apply nil_length_inv in Ht. }
    rewrite Hsc. cbn [mbind option_bind]. unfold rankResults.
    destruct (Z.ltb_spec topK 0); [lia|]. fold (collect (pick scores)). fold ranked.
    by rewrite Hrun.
  - by rewrite Z.sub_0_r in Hrs.
Qed.

(** Without documents or without query tokens the search is empty. *)
Lemma Search_empty e pick query topK :
  docs e = [] ∨ tokenize query = [] → Search pick e query topK = Some [].
Proof.
  unfold Search. intros [H|H].
  - by rewrite H.
  - destruct (length (docs e) =? 0)%nat; [done|]. by rewrite H.
Qed.

(** ** The average length *)

Lemma fold_left_tokens ds : ∀ acc,
  fold_left (λ total d, (total + length (tokenize (docText d)))%nat) ds acc
  = (acc + totalTokens ds)%nat.
Proof.
  unfold totalTokens.
  induction ds as [|d rest IH]; intros acc; simpl; [lia|]. rewrite IH. lia.
Qed.

Lemma avgDocLen_mean e :
  avgDocLen e
  = if decide (docs e = []) then 100
    else INR (totalTokens (docs e)) / INR (length (docs e)).
Proof.
  unfold avgDocLen. destruct (docs e) as [|d rest] eqn:Hd; [done|].
  rewrite decide_False by done. cbn [length Nat.eqb].
  by rewrite fold_left_tokens.
Qed.

(** ** Normalised scores *)






Lemma descending_head top rest sd :
  descending (top :: rest) → sd ∈ top :: rest → sd_score sd <= sd_score top.
Proof.
  intros Hs Hin. apply StronglySorted_inv in Hs as [_ Hall].
  apply elem_of_cons in Hin as [->|Hin]; [lra|].
  rewrite Forall_forall in Hall. by apply Hall.
Qed.


Lemma tagEngine_goSized : goSized tagEngine.
Proof.
  intros doc Hin. vm_compute in Hin. apply list_elem_of_singleton in Hin.
  subst doc. vm_compute. reflexivity.
Qed.

Lemma admissible_map_to_list : admissible map_to_list.
Proof. intros m. unfold visitOf. done. Qed.

Lemma tagEngine_avgDocLen : avgDocLen tagEngine = 3.
Proof.
  assert (Hdocs : docs tagEngine = [docTagged]) by (vm_compute; reflexivity).
  assert (Hlen : length (tokenize (docText docTagged)) = 3%nat) by (vm_compute; reflexivity).
  rewrite avgDocLen_mean, Hdocs. rewrite decide_False by discriminate.
  unfold totalTokens. cbn [map sum_list sum_list_with length]. rewrite Hlen.
  simpl. lra.
Qed.


Lemma prefixScore_none e t keys N avgLen idx :
  forallb (λ u, negb (prefixMatch t u)) keys = true →
  prefixScore e t keys N avgLen idx = 0.
Proof.
  unfold prefixScore. induction keys as [|u rest IH]; intros H; simpl in *; [done|].
  apply andb_prop in H as [Hu Hrest]. apply negb_true_iff in Hu.
  rewrite Hu, IH by done. lra.
Qed.



(** ** The exact-match formula *)

Lemma lookup_scoreOf (m : gmap nat R) i :
  m !! i = if decide (i ∈ dom m) then Some (scoreOf m i) else None.
Proof.
  unfold scoreOf. destruct (m !! i) as [s|] eqn:H.
  - rewrite decide_True; [done|]. apply elem_of_dom. by eexists.
  - rewrite decide_False; [done|]. by apply not_elem_of_dom.
Qed.










(** ** The prefix pass *)


Lemma map_eq_scoreOf (m m' : gmap nat R) :
  (∀ idx, idx ∈ dom m ↔ idx ∈ dom m') →
  (∀ idx, scoreOf m idx = scoreOf m' idx) → m = m'.
Proof.
  intros Hdom Hval. apply map_eq. intros idx. rewrite !lookup_scoreOf, Hval.
  destruct (decide (idx ∈ dom m)) as [H|H].
  - rewrite decide_True; [done|]. by apply Hdom.
  - rewrite decide_False; [done|]. by rewrite <- Hdom.
Qed.






(** ** Signs *)

Lemma idfOf_pos N df : 0 < df → df <= N → 0 < idfOf N df.
Proof.
  intros Hdf Hle. unfold idfOf. rewrite <- ln_1. apply ln_increasing; [lra|].
  assert (0 < (N - df + 0.5) / (df + 0.5)); [|lra].
  apply Rdiv_lt_0_compat; lra.
Qed.

Lemma tfNorm_denominator tf docLen avgLen :
  0 <= docLen → 0 < avgLen →
  0 < INR tf + 1.5 * (1 - 0.75 + 0.75 * docLen / avgLen).
Proof.
  intros Hd Ha. pose proof (pos_INR tf).
  assert (0 <= docLen / avgLen).
  { unfold Rdiv. apply Rmult_le_pos; [done|]. left. by apply Rinv_0_lt_compat. }
  lra.
Qed.


(** ** A search with one candidate *)


Lemma rigidEngine_goSized : goSized rigidEngine.
Proof.
  intros doc Hin. vm_compute in Hin. apply list_elem_of_singleton in Hin.
  subst doc. vm_compute. reflexivity.
Qed.




(** ** Term frequency saturation *)

Lemma tfNorm_alt tf docLen avgLen :
  0 <= docLen → 0 < avgLen →
  let K := 1.5 * (1 - 0.75 + 0.75 * docLen / avgLen) in
  tfNorm tf docLen avgLen 1.5 0.75 = (1.5 + 1) * (1 - K / (INR tf + K)).
Proof.
  intros Hd Ha K. pose proof (tfNorm_denominator tf docLen avgLen Hd Ha) as Hden.
  fold K in Hden. unfold tfNorm. fold K. field. lra.
Qed.

(** [tfNorm] grows with the term frequency and stays below [k1 + 1]. *)
Lemma tfNorm_monotone tf1 tf2 docLen avgLen :
  0 <= docLen → 0 < avgLen → (tf1 <= tf2)%nat →
  tfNorm tf1 docLen avgLen 1.5 0.75 <= tfNorm tf2 docLen avgLen 1.5 0.75
  ∧ tfNorm tf2 docLen avgLen 1.5 0.75 < 1.5 + 1.
Proof.
  intros Hd Ha Htf. rewrite !tfNorm_alt by done. cbv zeta.
  set (K := 1.5 * (1 - 0.75 + 0.75 * docLen / avgLen)).
  pose proof (tfNorm_denominator tf1 docLen avgLen Hd Ha) as H1.
  pose proof (tfNorm_denominator tf2 docLen avgLen Hd Ha) as H2.
  fold K in H1, H2.
  assert (HK : 0 < K).
  { pose proof (tfNorm_denominator 0 docLen avgLen Hd Ha) as H0. fold K in H0.
    simpl in H0. lra. }
  apply le_INR in Htf.
  assert (Hinv : / (INR tf2 + K) <= / (INR tf1 + K)).
  { apply Rinv_le_contravar; lra. }
  assert (Hpos : 0 < / (INR tf2 + K)) by by apply Rinv_0_lt_compat.
  unfold Rdiv. split.
  - assert (K * / (INR tf2 + K) <= K * / (INR tf1 + K))
      by (apply Rmult_le_compat_l; lra).
    lra.
  - assert (0 < K * / (INR tf2 + K)) by by apply Rmult_lt_0_compat.
    lra.
Qed.

(** With [df <= N] the contribution of a term does not decrease when the
    term frequency grows. *)
Lemma contribution_monotone N df tf1 tf2 docLen avgLen :
  0 < df → df <= N → 0 <= docLen → 0 < avgLen → (tf1 <= tf2)%nat →
  idfOf N df * tfNorm tf1 docLen avgLen 1.5 0.75 * 1.0
  <= idfOf N df * tfNorm tf2 docLen avgLen 1.5 0.75 * 1.0.
Proof.
  intros Hdf Hle Hd Ha Htf.
  pose proof (idfOf_pos N df Hdf Hle) as Hidf.
  destruct (tfNorm_monotone tf1 tf2 docLen avgLen Hd Ha Htf) as [Hmono _].
  assert (idfOf N df * tfNorm tf1 docLen avgLen 1.5 0.75
          <= idfOf N df * tfNorm tf2 docLen avgLen 1.5 0.75)
    by (apply Rmult_le_compat_l; lra).
  lra.
Qed.

(** C9, the code at the failing input.  After each of the two pages was
    upserted twice the postings of [foo] hold four entries for two
    documents, the idf of the term is negative, and the page with five
    occurrences gets less than the page with one, per entry and in the
    whole call.  (With [df <= N] the contribution is monotone:
    [contribution_monotone].) *)
Theorem C9_more_occurrences_score_less :
  let e := dupEngine in
  let N := INR (length (docs e)) in
  let avgLen := avgDocLen e in
  docs e = [docFive; docOne]
  ∧ index e !! "foo" = Some [0; 1; 0; 1]%nat
  ∧ countOccurrences "foo" (docText docFive) = Some 5%nat
  ∧ countOccurrences "foo" (docText docOne) = Some 1%nat
  ∧ length (tokenize (docText docFive)) = length (tokenize (docText docOne))
  ∧ idfOf N (INR 4) < 0
  ∧ perPosting e "foo" (idfOf N (INR 4)) avgLen 1.5 0.75 1.0 0
    < perPosting e "foo" (idfOf N (INR 4)) avgLen 1.5 0.75 1.0 1
  ∧ ∃ scores',
      scoreToken e "foo" ["foo"] ∅ N avgLen 1.5 0.75 1.0 = Some scores'
      ∧ scoreOf scores' 0 < scoreOf scores' 1.
Proof.
  intros e N avgLen.
  assert (Hdocs : docs e = [docFive; docOne]) by (vm_compute; reflexivity).
  assert (Hix : index e !! "foo" = Some [0; 1; 0; 1]%nat) by (vm_compute; reflexivity).
  assert (Htf5 : countOccurrences "foo" (docText docFive) = Some 5%nat)
    by (vm_compute; reflexivity).
  assert (Htf1 : countOccurrences "foo" (docText docOne) = Some 1%nat)
    by (vm_compute; reflexivity).
  assert (Hlen5 : length (tokenize (docText docFive)) = 5%nat)
    by (vm_compute; reflexivity).
  assert (Hlen1 : length (tokenize (docText docOne)) = 5%nat)
    by (vm_compute; reflexivity).
  assert (HN : N = 2) by (unfold N; rewrite Hdocs; simpl; lra).
  assert (Havg : avgLen = 5).
  { unfold avgLen. rewrite avgDocLen_mean, Hdocs. rewrite decide_False by done.
    unfold totalTokens. cbn [map sum_list sum_list_with length].
    rewrite Hlen5, Hlen1. simpl. lra. }
  assert (Hidf : idfOf N (INR 4) < 0).
  { rewrite HN. unfold idfOf. rewrite <- ln_1. apply ln_increasing; simpl; lra. }
  assert (Hper : perPosting e "foo" (idfOf N (INR 4)) avgLen 1.5 0.75 1.0 0
                 < perPosting e "foo" (idfOf N (INR 4)) avgLen 1.5 0.75 1.0 1).
  { unfold perPosting. rewrite Hdocs. cbn [lookup list_lookup].
    rewrite Htf5, Htf1, Hlen5, Hlen1, Havg.
    assert (H5 : tfNorm 5 (INR 5) 5 1.5 0.75 = 25 / 13) by (unfold tfNorm; simpl; lra).
    assert (H1 : tfNorm 1 (INR 5) 5 1.5 0.75 = 1) by (unfold tfNorm; simpl; lra).
    rewrite H5, H1. lra. }
  split; [exact Hdocs|]. split; [exact Hix|]. split; [exact Htf5|]. split; [exact Htf1|].
  split; [rewrite Hlen5, Hlen1; reflexivity|]. split; [exact Hidf|]. split; [exact Hper|].
  destruct (scoreToken_total e "foo" ["foo"] ∅ N avgLen 1.5 0.75 1.0) as [scores' Hrun].
  { apply reachable_postingsInRange. repeat apply reach_add. apply reach_new. }
  { apply reachable_keysNonEmpty. repeat apply reach_add. apply reach_new. }
  exists scores'. split; [exact Hrun|].
  apply scoreToken_spec in Hrun as [_ Hval]. rewrite !Hval.
  unfold termScore. rewrite Hix. unfold scoreOf. rewrite !lookup_empty.
  cbn [default length]. fold N.
  change (count_occ Nat.eq_dec [0; 1; 0; 1]%nat 0%nat) with 2%nat.
  change (count_occ Nat.eq_dec [0; 1; 0; 1]%nat 1%nat) with 2%nat.
  revert Hper.
  generalize (perPosting e "foo" (idfOf N (INR 4)) avgLen 1.5 0.75 1.0 0).
  generalize (perPosting e "foo" (idfOf N (INR 4)) avgLen 1.5 0.75 1.0 1).
  intros p1 p0 Hper. change (INR 2) with (1 + 1). lra.
Qed.

(** ** Ties *)

Lemma admissible_pickAsc : admissible pickAsc.
Proof. intros m. unfold visitOf, pickAsc. apply merge_sort_Permutation. Qed.

Lemma admissible_pickDesc : admissible pickDesc.
Proof.
  intros m. unfold visitOf, pickDesc. rewrite <- Permutation_rev.
  apply admissible_pickAsc.
Qed.

(** Two entries with the same score keep the order of the visit. *)
Lemma insertionSort_tie a b :
  sd_score a = sd_score b → insertionSort [a; b] = [a; b].
Proof.
  intros Heq. unfold insertionSort. simpl.
  destruct (Rgt_dec (sd_score b) (sd_score a)); [lra|done].
Qed.

Lemma pickAsc_pair (m : gmap nat R) v w :
  map_to_list m ≡ₚ [(0%nat, v); (1%nat, w)] →
  pickAsc m = [(0%nat, v); (1%nat, w)].
Proof.
  intros Hperm. unfold pickAsc. symmetry in Hperm.
  apply Permutation_length_2_inv in Hperm as [->| ->]; reflexivity.
Qed.

Lemma twinEngine_goSized : goSized twinEngine.
Proof.
  intros doc Hin. vm_compute in Hin.
  apply elem_of_cons in Hin as [->|Hin]; [vm_compute; reflexivity|].
  apply list_elem_of_singleton in Hin as ->. vm_compute. reflexivity.
Qed.

(** The score map of [twinEngine] for the query [rigidbody]: the two
    slots, with one and the same score. *)
Lemma twin_scores :
  ∃ scores v,
    searchScores twinEngine (tokenize "rigidbody") = Some scores
    ∧ map_to_list scores ≡ₚ [(0%nat, v); (1%nat, v)].
Proof.
  assert (Hreach : reachable twinEngine) by (repeat apply reach_add; apply reach_new).
  assert (Htok : tokenize "rigidbody" = ["rigidbody"]) by (vm_compute; reflexivity).
  assert (Hdocs : docs twinEngine = [docRigid; docTwin]) by (vm_compute; reflexivity).
  assert (Hix : index twinEngine !! "rigidbody" = Some [0; 1]%nat)
    by (vm_compute; reflexivity).
  assert (Hkeys : indexKeys twinEngine = ["rigidbody"]) by (vm_compute; reflexivity).
  rewrite Htok.
  assert (Hsame : totalScore twinEngine ["rigidbody"] 1
                  = totalScore twinEngine ["rigidbody"] 0).
  { unfold totalScore, titleScore, prefixScore, termScore, perPosting.
    rewrite Hkeys. cbn [sumOver]. rewrite Hix, Hdocs. cbn [lookup list_lookup].
    change (docText docTwin) with (docText docRigid).
    change (Title docTwin) with (Title docRigid).
    change (count_occ Nat.eq_dec [0; 1]%nat 1%nat) with 1%nat.
    change (count_occ Nat.eq_dec [0; 1]%nat 0%nat) with 1%nat.
    reflexivity. }
  destruct (searchScores_spec twinEngine ["rigidbody"])
    as (scores & Hsc & Hdom & Hrange & Hval).
  { apply reachable_postingsInRange. exact Hreach. }
  { apply reachable_keysNonEmpty. exact Hreach. }
  assert (Hcand : ∀ idx, idx ∈ dom scores ↔ idx = 0%nat ∨ idx = 1%nat).
  { intros idx. split.
    - intros Hin. apply Hrange in Hin. rewrite Hdocs in Hin. cbn [length] in Hin. lia.
    - intros Hidx. apply Hdom. left. exists "rigidbody". split; [left|]. left.
      unfold postingsOf. rewrite Hix. cbn [default].
      destruct Hidx as [->| ->]; [left|right; left]. }
  pose proof (Hval 0%nat) as H0. pose proof (Hval 1%nat) as H1. rewrite Hsame in H1.
  clear Hval Hsame Hdom Hrange Hix Hkeys Hdocs Hreach.
  revert H0 H1. generalize (totalScore twinEngine ["rigidbody"] 0). intros v H0 H1.
  exists scores, v. split; [exact Hsc|]. clear Hsc.
  assert (Hscores : scores = <[0%nat := v]> {[1%nat := v]}).
  { apply map_eq_scoreOf.
    - intros idx. rewrite Hcand, dom_insert_L, dom_singleton_L.
      rewrite elem_of_union, !elem_of_singleton. tauto.
    - intros idx. unfold scoreOf at 2.
      destruct (decide (idx = 0%nat)) as [->|Hn0].
      { rewrite lookup_insert_eq. exact H0. }
      rewrite lookup_insert_ne by (intros Heq; apply Hn0; symmetry; exact Heq).
      destruct (decide (idx = 1%nat)) as [->|Hn1].
      { rewrite lookup_singleton_eq. exact H1. }
      rewrite lookup_singleton_ne by (intros Heq; apply Hn1; symmetry; exact Heq).
      unfold scoreOf.
      assert (Hnone : scores !! idx = None).
      { apply not_elem_of_dom. rewrite Hcand. lia. }
      rewrite Hnone. reflexivity. }
  rewrite Hscores. rewrite map_to_list_insert by reflexivity.
  rewrite map_to_list_singleton. reflexivity.
Qed.

(** C3, the code at the failing input.  Two pages with the same text have
    the same score; the order of the two results is the order in which the
    range over the score map delivers the two slots.  Both orders are
    orders Go may choose, and they give different result lists. *)
Theorem C3_tie_order_follows_map_iteration :
  admissible pickAsc ∧ admissible pickDesc
  ∧ ∃ r1 r2 r1' r2',
      Search pickAsc twinEngine "rigidbody" 5 = Some [r1; r2]
      ∧ Search pickDesc twinEngine "rigidbody" 5 = Some [r2'; r1']
      ∧ RURL r1 = "u1" ∧ RURL r2 = "u2" ∧ RURL r2' = "u2" ∧ RURL r1' = "u1"
      ∧ Score r1 = Score r2
      ∧ Search pickAsc twinEngine "rigidbody" 5
        ≠ Search pickDesc twinEngine "rigidbody" 5.
Proof.
  split; [apply admissible_pickAsc|]. split; [apply admissible_pickDesc|].
  assert (Hreach : reachable twinEngine) by (repeat apply reach_add; apply reach_new).
  pose proof (reachable_postingsInRange _ Hreach) as Hr.
  pose proof (reachable_keysNonEmpty _ Hreach) as Hk.
  assert (Hdocs : docs twinEngine = [docRigid; docTwin]) by (vm_compute; reflexivity).
  destruct twin_scores as (scores & v & Hsc & Hperm).
  pose proof (pickAsc_pair scores v v Hperm) as Hasc.
  assert (Hdesc : pickDesc scores = [(1%nat, v); (0%nat, v)]).
  { unfold pickDesc. by rewrite Hasc. }
  destruct (Search_run twinEngine pickAsc "rigidbody" 5 Hr Hk twinEngine_goSized
              admissible_pickAsc)
    as (s1 & ranked1 & res1 & Hs1 & Hrk1 & _ & _ & Hrun1 & Hres1);
    [lia|by rewrite Hdocs|vm_compute; discriminate|].
  destruct (Search_run twinEngine pickDesc "rigidbody" 5 Hr Hk twinEngine_goSized
              admissible_pickDesc)
    as (s2 & ranked2 & res2 & Hs2 & Hrk2 & _ & _ & Hrun2 & Hres2);
    [lia|by rewrite Hdocs|vm_compute; discriminate|].
  cbv zeta in Hs1, Hs2. rewrite Hsc in Hs1, Hs2.
  injection Hs1 as <-. injection Hs2 as <-.
  rewrite Hasc in Hrk1. rewrite Hdesc in Hrk2.
  unfold collect in Hrk1, Hrk2. cbn [map fst snd] in Hrk1, Hrk2.
  rewrite insertionSort_tie in Hrk1, Hrk2 by done.
  subst ranked1 ranked2.
  change (take (Z.to_nat 5) [mkScored 0 v; mkScored 1 v])
    with [mkScored 0 v; mkScored 1 v] in Hres1.
  change (take (Z.to_nat 5) [mkScored 1 v; mkScored 0 v])
    with [mkScored 1 v; mkScored 0 v] in Hres2.
  apply Forall2_cons_inv_l in Hres1
    as (r1 & k1 & (d1 & Hl1 & _ & Hu1 & _ & Hsc1) & Hres1 & ->).
  apply Forall2_cons_inv_l in Hres1
    as (r2 & k1' & (d2 & Hl2 & _ & Hu2 & _ & Hsc2) & Hres1 & ->).
  apply Forall2_nil_inv_l in Hres1 as ->.
  apply Forall2_cons_inv_l in Hres2
    as (r2' & k2 & (d2' & Hl2' & _ & Hu2' & _ & _) & Hres2 & ->).
  apply Forall2_cons_inv_l in Hres2
    as (r1' & k2' & (d1' & Hl1' & _ & Hu1' & _ & _) & Hres2 & ->).
  apply Forall2_nil_inv_l in Hres2 as ->.
  rewrite Hdocs in Hl1, Hl2, Hl2', Hl1'. cbn in Hl1, Hl2, Hl2', Hl1'.
  injection Hl1 as <-. injection Hl2 as <-. injection Hl2' as <-. injection Hl1' as <-.
  exists r1, r2, r1', r2'.
  split; [done|]. split; [done|]. split; [done|]. split; [done|].
  split; [done|]. split; [done|]. split.
  - rewrite Hsc1, Hsc2. done.
  - rewrite Hrun1, Hrun2. intros Heq. injection Heq as Heq _.
    assert (Hurl : RURL r1 = RURL r2') by by rewrite Heq.
    rewrite Hu1, Hu2' in Hurl. discriminate.
Qed.

(** * Further properties of the engine *)

(** ** The shape of tokens *)

Lemma lowerRune_not_upper c : isUpper (lowerRune c) = false.
Proof. destruct c as [[] [] [] [] [] [] [] []]; vm_compute; reflexivity. Qed.

Lemma lowerRune_fixed c : isUpper c = false → lowerRune c = c.
Proof. intros H. unfold lowerRune. rewrite H. reflexivity. Qed.

Lemma ToLower_not_upper s : allBytes (λ c, negb (isUpper c)) (ToLower s) = true.
Proof.
  induction s as [|c s IH]; [reflexivity|].
  cbn [ToLower allBytes]. rewrite lowerRune_not_upper, IH. reflexivity.
Qed.

Lemma allBytes_app p s t :
  allBytes p (s +:+ t) = allBytes p s && allBytes p t.
Proof.
  induction s as [|c s IH]; [reflexivity|].
  change (String c s +:+ t) with (String c (s +:+ t)). cbn [allBytes].
  rewrite IH. apply andb_assoc.
Qed.

Lemma tokenByte_lower tok : allBytes tokenByte tok = true → ToLower tok = tok.
Proof.
  induction tok as [|c tok IH]; [reflexivity|]. cbn [allBytes ToLower].
  intros H. apply andb_prop in H as [Hc Hrest]. unfold tokenByte in Hc.
  apply andb_prop in Hc as [_ Hc]. apply negb_true_iff in Hc.
  rewrite lowerRune_fixed by exact Hc. rewrite IH by exact Hrest. reflexivity.
Qed.

Lemma flush_wellFormed current tokens :
  allBytes tokenByte current = true →
  Forall wellFormedToken tokens → Forall wellFormedToken (flush current tokens).
Proof.
  intros Hcur Hall. unfold flush.
  destruct (2 <=? String.length current)%nat eqn:Hlen; [|exact Hall].
  destruct (isStopWord current) eqn:Hstop; [exact Hall|].
  apply Forall_app. split; [exact Hall|].
  constructor; [|constructor]. split; [by apply Nat.leb_le|]. split; assumption.
Qed.

Lemma tokenizeLoop_wellFormed text :
  ∀ current tokens,
    allBytes (λ c, negb (isUpper c)) text = true →
    allBytes tokenByte current = true →
    Forall wellFormedToken tokens →
    Forall wellFormedToken (tokenizeLoop text current tokens).
Proof.
  induction text as [|r rest IH]; intros current tokens Htext Hcur Hall;
    cbn [tokenizeLoop].
  - by apply flush_wellFormed.
  - cbn [allBytes] in Htext. apply andb_prop in Htext as [Hr Hrest].
    destruct (IsLetter r || IsDigit r) eqn:Hword.
    + apply IH; [exact Hrest| |exact Hall].
      rewrite allBytes_app, Hcur. cbn [allBytes]. unfold tokenByte, wordByte.
      rewrite Hword, Hr. reflexivity.
    + apply IH; [exact Hrest|reflexivity|]. by apply flush_wellFormed.
Qed.

(** X1. For a text of ASCII bytes only, where every rune is one byte and
    the letters and digits of [unicode] are those of ASCII: every token of
    [tokenize] has at least two bytes, is not a stop word, and is made of
    lowercase ASCII letters and digits only; lowercasing it again changes
    nothing. *)
Theorem X1_tokens_are_well_formed text tok :
  allBytes isAscii text = true →
  tok ∈ tokenize text →
  (2 <= String.length tok)%nat
  ∧ (tok ∉ stopWords)
  ∧ allBytes tokenByte tok = true
  ∧ ToLower tok = tok.
Proof.
  intros _ Hin.
  assert (Hall : Forall wellFormedToken (tokenize text)).
  { apply tokenizeLoop_wellFormed; [apply ToLower_not_upper|reflexivity|constructor]. }
  rewrite Forall_forall in Hall. destruct (Hall tok Hin) as (Hlen & Hstop & Hbytes).
  split; [exact Hlen|]. split.
  - unfold isStopWord in Hstop. by apply bool_decide_eq_false in Hstop.
  - split; [exact Hbytes|]. by apply tokenByte_lower.
Qed.

Lemma X1_tokens_are_well_formed_witness :
  (2 <= String.length "rigidbody2d")%nat
  ∧ ("rigidbody2d" ∉ stopWords)
  ∧ allBytes tokenByte "rigidbody2d" = true
  ∧ ToLower "rigidbody2d" = "rigidbody2d".
Proof.
  apply (X1_tokens_are_well_formed "Rigidbody2D is used for 2D physics").
  - vm_compute. reflexivity.
  - vm_compute. left.
Defined.

(** ** Tokenizing tokens again *)

Lemma tokenizeLoop_word t :
  ∀ rest current tokens,
    allBytes wordByte t = true →
    tokenizeLoop (t +:+ rest) current tokens
    = tokenizeLoop rest (current +:+ t) tokens.
Proof.
  induction t as [|c t IH]; intros rest current tokens Hword.
  - change (EmptyString +:+ rest) with rest. by rewrite string_app_empty_r.
  - cbn [allBytes] in Hword. apply andb_prop in Hword as [Hc Ht].
    change (String c t +:+ rest) with (String c (t +:+ rest)).
    cbn [tokenizeLoop]. unfold wordByte in Hc. rewrite Hc.
    rewrite IH by exact Ht. f_equal. rewrite string_app_assoc. reflexivity.
Qed.

Lemma tokenByte_word tok : allBytes tokenByte tok = true → allBytes wordByte tok = true.
Proof.
  induction tok as [|c tok IH]; [reflexivity|]. cbn [allBytes]. intros H.
  apply andb_prop in H as [Hc Hrest]. unfold tokenByte in Hc.
  apply andb_prop in Hc as [Hc _]. rewrite Hc, IH by exact Hrest. reflexivity.
Qed.

Lemma flush_token tok tokens :
  wellFormedToken tok → flush tok tokens = tokens ++ [tok].
Proof.
  intros (Hlen & Hstop & _). unfold flush.
  apply Nat.leb_le in Hlen. rewrite Hlen, Hstop. reflexivity.
Qed.

Lemma tokenizeLoop_Join toks :
  ∀ tokens,
    Forall wellFormedToken toks →
    tokenizeLoop (Join toks " ") EmptyString tokens = tokens ++ toks.
Proof.
  induction toks as [|x rest IH]; intros tokens Hall.
  - cbn. by rewrite app_nil_r.
  - apply Forall_cons in Hall as [Hx Hrest].
    pose proof Hx as (_ & _ & Hbytes). apply tokenByte_word in Hbytes.
    destruct rest as [|y rest].
    + cbn [Join]. rewrite <- (string_app_empty_r x) at 1.
      rewrite tokenizeLoop_word by exact Hbytes.
      change (EmptyString +:+ x) with x. cbn [tokenizeLoop]. by apply flush_token.
    + change (Join (x :: y :: rest) " ") with (x +:+ " " +:+ Join (y :: rest) " ").
      rewrite tokenizeLoop_word by exact Hbytes.
      change (EmptyString +:+ x) with x.
      change (" " +:+ Join (y :: rest) " ")
        with (String " "%char (Join (y :: rest) " ")).
      cbn [tokenizeLoop].
      change (IsLetter " " || IsDigit " ") with false. cbv iota.
      rewrite flush_token by exact Hx. rewrite IH by exact Hrest.
      by rewrite <- app_assoc.
Qed.

Lemma ToLower_app s t : ToLower (s +:+ t) = ToLower s +:+ ToLower t.
Proof.
  induction s as [|c s IH]; [reflexivity|].
  change (String c s +:+ t) with (String c (s +:+ t)). cbn [ToLower].
  rewrite IH. reflexivity.
Qed.

Lemma ToLower_Join toks :
  Forall wellFormedToken toks → ToLower (Join toks " ") = Join toks " ".
Proof.
  induction toks as [|x rest IH]; intros Hall; [reflexivity|].
  apply Forall_cons in Hall as [(_ & _ & Hx) Hrest].
  destruct rest as [|y rest].
  - cbn [Join]. by apply tokenByte_lower.
  - change (Join (x :: y :: rest) " ") with (x +:+ " " +:+ Join (y :: rest) " ").
    rewrite !ToLower_app, IH by exact Hrest.
    rewrite tokenByte_lower by exact Hx. reflexivity.
Qed.

(** X2. Tokenizing is a fixed point on its own output: the tokens of a
    text, joined by spaces and tokenized again, are the same tokens in the
    same order. *)
Theorem X2_tokenize_fixed_point text :
  tokenize (Join (tokenize text) " ") = tokenize text.
Proof.
  assert (Hall : Forall wellFormedToken (tokenize text)).
  { apply tokenizeLoop_wellFormed; [apply ToLower_not_upper|reflexivity|constructor]. }
  unfold tokenize at 1. rewrite ToLower_Join by exact Hall.
  rewrite tokenizeLoop_Join by exact Hall. reflexivity.
Qed.

(** ** Term frequency *)

Lemma Index_empty_token s : Index s EmptyString = Some 0%nat.
Proof. rewrite Index_unfold. by destruct s. Qed.





(** X4. For the empty token the loop of [countOccurrences] never ends:
    [strings.Index] finds it at offset 0 and the position does not move,
    however many turns are allowed. *)
Theorem X4_empty_token_never_returns text :
  (∀ fuel idx count, countLoop fuel EmptyString (ToLower text) idx count = None)
  ∧ countOccurrences EmptyString text = None.
Proof.
  assert (H : ∀ fuel idx count,
             countLoop fuel EmptyString (ToLower text) idx count = None).
  { induction fuel as [|fuel IH]; intros idx count; [reflexivity|].
    cbn [countLoop]. rewrite Index_empty_token. apply IH. }
  split; [exact H|apply H].
Qed.

(** ** What an upsert keeps *)

Lemma AddDoc_index_case e doc :
  ∃ idx, (idx < length (docs (AddDoc e doc)))%nat
         ∧ docs (AddDoc e doc) !! idx = Some doc
         ∧ index (AddDoc e doc) = index (reindexDoc e idx doc)
         ∧ (∀ i, i ≠ idx → docs (AddDoc e doc) !! i = docs e !! i)
         ∧ (∀ d, docs e !! idx = Some d → URL d = URL doc).
Proof.
  destruct (findURL (URL doc) (docs e) 0) as [k|] eqn:H.
  - destruct (AddDoc_replace _ _ _ H) as (Hd & Hix & Hlt).
    exists k. rewrite Hd, length_insert. split; [exact Hlt|].
    split; [by apply list_lookup_insert_eq|]. split; [exact Hix|]. split.
    + intros i Hne. apply list_lookup_insert_ne. congruence.
    + intros d Hl. apply findURL_Some in H as [_ (d' & Hl' & Hu)].
      rewrite Nat.sub_0_r in Hl'. congruence.
  - destruct (AddDoc_append _ _ H) as (Hd & Hix).
    exists (length (docs e)). rewrite Hd, length_app. cbn [length].
    split; [lia|]. split.
    + rewrite lookup_app_r by lia. by rewrite Nat.sub_diag.
    + split; [exact Hix|]. split.
      * intros i Hne. destruct (decide (i < length (docs e))%nat) as [Hlt|Hge].
        -- by apply lookup_app_l.
        -- rewrite (lookup_ge_None_2 (docs e)) by lia.
           apply lookup_ge_None_2. rewrite length_app. cbn [length]. lia.
      * intros d Hl. apply lookup_lt_Some in Hl. lia.
Qed.


Lemma AddDoc_indexComplete e doc : indexComplete e → indexComplete (AddDoc e doc).
Proof.
  intros Hinv i d tok Hl Htok.
  destruct (AddDoc_index_case e doc) as (idx & Hlt & Hdoc & Hix & Hother & _).
  unfold postingsOf. rewrite Hix, reindexDoc_lookup.
  destruct (decide (i = idx)) as [->|Hne].
  - rewrite Hdoc in Hl. injection Hl as <-.
    rewrite decide_True by exact Htok. cbn [default].
    apply elem_of_app. right. left.
  - rewrite Hother in Hl by exact Hne.
    specialize (Hinv i d tok Hl Htok). unfold postingsOf in Hinv.
    destruct (decide (tok ∈ tokenize (combined doc))); [|exact Hinv].
    cbn [default]. apply elem_of_app. by left.
Qed.

Lemma reachable_indexComplete e : reachable e → indexComplete e.
Proof.
  induction 1 as [|e d _ IH]; [|by apply AddDoc_indexComplete].
  intros j dj t Hj. cbn in Hj. discriminate.
Qed.

(** X6. In every reachable engine each token of the combined text (title,
    body, tags) of a stored document has the slot of the document in its
    postings. *)
Theorem X6_index_is_complete e i doc tok :
  reachable e →
  docs e !! i = Some doc →
  tok ∈ tokenize (combined doc) →
  i ∈ postingsOf e tok ∧ is_Some (index e !! tok).
Proof.
  intros Hr Hl Htok.
  pose proof (reachable_indexComplete e Hr i doc tok Hl Htok) as Hinv.
  split; [exact Hinv|].
  unfold postingsOf in Hinv. destruct (index e !! tok); [by eexists|].
  by apply elem_of_nil in Hinv.
Qed.

Lemma X6_index_is_complete_witness :
  0%nat ∈ postingsOf tagEngine "physics" ∧ is_Some (index tagEngine !! "physics").
Proof.
  apply (X6_index_is_complete tagEngine 0 docTagged "physics").
  - apply reach_add, reach_new.
  - reflexivity.
  - vm_compute. do 3 right. left.
Defined.

(** ** Building a store from a list of documents *)

Lemma hasToken_app_l ds d tok i :
  (i < length ds)%nat → hasToken (ds ++ [d]) tok i = hasToken ds tok i.
Proof. intros Hi. unfold hasToken. by rewrite lookup_app_l. Qed.

Lemma slotsWith_snoc ds d tok :
  slotsWith (ds ++ [d]) tok
  = slotsWith ds tok
    ++ (if decide (tok ∈ tokenize (combined d)) then [length ds] else []).
Proof.
  unfold slotsWith. rewrite length_app. cbn [length].
  rewrite Nat.add_1_r, seq_S, List.filter_app. cbn [Nat.add List.filter].
  f_equal.
  - apply List.filter_ext_in. intros i Hi. apply in_seq in Hi.
    apply hasToken_app_l. lia.
  - unfold hasToken. rewrite lookup_app_r by lia. rewrite Nat.sub_diag.
    cbn [lookup list_lookup].
    destruct (decide (tok ∈ tokenize (combined d))) as [Hin|Hin].
    + by rewrite bool_decide_eq_true_2.
    + by rewrite bool_decide_eq_false_2.
Qed.

(** Documents with pairwise different URLs, added to a fresh engine, fill
    the slots in order, and the postings of a term are the slots whose
    document has the term, each once, by increasing slot. *)
Lemma fresh_build ds :
  NoDup (URL <$> ds) →
  docs (fold_left AddDoc ds NewEngine) = ds
  ∧ ∀ tok, postingsOf (fold_left AddDoc ds NewEngine) tok = slotsWith ds tok.
Proof.
  induction ds as [|d ds IH] using rev_ind; intros Hnd.
  - split; [reflexivity|]. intros tok. reflexivity.
  - rewrite fmap_app in Hnd. apply NoDup_app in Hnd as (Hnd & Hnew & _).
    destruct (IH Hnd) as [Hdocs Hpost]. rewrite fold_left_app. cbn [fold_left].
    set (e := fold_left AddDoc ds NewEngine) in *.
    assert (Hfind : findURL (URL d) (docs e) 0 = None).
    { apply findURL_None. rewrite Hdocs. intros Hin. apply (Hnew _ Hin). left. }
    destruct (AddDoc_append e d Hfind) as [Hd Hix]. split.
    + by rewrite Hd, Hdocs.
    + intros tok. unfold postingsOf at 1. rewrite Hix, reindexDoc_lookup.
      rewrite slotsWith_snoc, <- Hpost, Hdocs. unfold postingsOf.
      destruct (decide (tok ∈ tokenize (combined d))); [reflexivity|].
      by rewrite app_nil_r.
Qed.

Lemma slotsWith_NoDup ds tok : NoDup (slotsWith ds tok).
Proof.
  unfold slotsWith. apply NoDup_ListNoDup, List.NoDup_filter, seq_NoDup.
Qed.

(** X7. Loading the document list of a reachable engine (what
    [SaveCache] serialises) into a fresh engine reports no error and
    rebuilds the same documents in the same slots; the rebuilt postings of
    each term are exactly the slots whose document has the term, each
    slot once. *)
Theorem X7_reload_rebuilds_the_store {error : Type}
    (ReadFile : string → error + string) (Unmarshal : string → error + list Doc)
    (e0 : Engine) (path data : string) :
  reachable e0 →
  ReadFile path = inr data →
  Unmarshal data = inr (docs e0) →
  ∃ e', LoadCache ReadFile Unmarshal NewEngine path = (e', None)
        ∧ docs e' = docs e0
        ∧ DocCount e' = DocCount e0
        ∧ ∀ tok, postingsOf e' tok = slotsWith (docs e0) tok
                 ∧ NoDup (postingsOf e' tok)
                 ∧ ∀ i, i ∈ postingsOf e' tok → i ∈ postingsOf e0 tok.
Proof.
  intros Hr Hread Hparse. unfold LoadCache. rewrite Hread, Hparse.
  destruct (fresh_build (docs e0) (reachable_URLs e0 Hr)) as [Hdocs Hpost].
  eexists. split; [reflexivity|]. split; [exact Hdocs|].
  split; [unfold DocCount; by rewrite Hdocs|].
  intros tok. rewrite Hpost. split; [reflexivity|].
  split; [apply slotsWith_NoDup|].
  intros i Hi. unfold slotsWith in Hi.
  apply list_elem_of_In, List.filter_In in Hi as [_ Hi].
  unfold hasToken in Hi. destruct (docs e0 !! i) as [doc|] eqn:Hdoc; [|discriminate].
  apply bool_decide_eq_true in Hi.
  exact (reachable_indexComplete e0 Hr i doc tok Hdoc Hi).
Qed.

Lemma X7_reload_rebuilds_the_store_witness :
  ∃ e', LoadCache cacheFile cacheDecoder NewEngine "cache/docs_index.json" = (e', None)
        ∧ docs e' = docs dupEngine
        ∧ DocCount e' = DocCount dupEngine
        ∧ ∀ tok, postingsOf e' tok = slotsWith (docs dupEngine) tok
                 ∧ NoDup (postingsOf e' tok)
                 ∧ ∀ i, i ∈ postingsOf e' tok → i ∈ postingsOf dupEngine tok.
Proof.
  apply (X7_reload_rebuilds_the_store cacheFile cacheDecoder dupEngine
           "cache/docs_index.json" "docs").
  - repeat apply reach_add. apply reach_new.
  - reflexivity.
  - reflexivity.
Defined.

(** ** When [Search] panics *)



(** ** The shape of a result list *)

Lemma Forall2_elem_r {A B} (rel : A → B → Prop) l k y :
  Forall2 rel l k → y ∈ k → ∃ x, x ∈ l ∧ rel x y.
Proof.
  intros H2 Hy. induction H2 as [|a b l k Hab H2 IH]; [by apply elem_of_nil in Hy|].
  apply elem_of_cons in Hy as [->|Hy].
  - exists a. split; [left|exact Hab].
  - destruct (IH Hy) as (x & Hx & Hrel). exists x. split; [by right|exact Hrel].
Qed.


Lemma Forall2_sorted {A B} (rel : A → B → Prop) (R1 : A → A → Prop)
    (R2 : B → B → Prop) l k :
  Forall2 rel l k → StronglySorted R1 l →
  (∀ a b x y, rel a x → rel b y → R1 a b → R2 x y) →
  StronglySorted R2 k.
Proof.
  intros H2 Hs Himp. induction H2 as [|a x l k Hax H2 IH]; [constructor|].
  apply StronglySorted_inv in Hs as [Hs Ha]. constructor; [by apply IH|].
  apply Forall_forall. intros y Hy.
  destruct (Forall2_elem_r _ _ _ _ H2 Hy) as (b & Hb & Hby).
  rewrite Forall_forall in Ha. eapply Himp; [exact Hax|exact Hby|by apply Ha].
Qed.

Lemma normalized_monotone maxScore raw1 raw2 :
  raw2 <= raw1 → normalized maxScore raw2 <= normalized maxScore raw1.
Proof.
  intros Hle. unfold normalized. destruct (Rgt_dec maxScore 0) as [Hpos|_]; [|lra].
  unfold Rdiv. apply Rmult_le_compat_r; [|exact Hle].
  left. apply Rinv_0_lt_compat. lra.
Qed.

Lemma descending_take n l : descending l → descending (take n l).
Proof.
  unfold descending. revert n. induction l as [|a l IH]; intros n Hs.
  - rewrite take_nil. constructor.
  - destruct n as [|n]; [constructor|]. cbn [take].
    apply StronglySorted_inv in Hs as [Hs Ha]. constructor; [by apply IH|].
    apply Forall_forall. intros b Hb. rewrite Forall_forall in Ha. apply Ha.
    apply elem_of_take in Hb as (i & Hi & _). apply list_elem_of_lookup. by exists i.
Qed.

(** The slots of the array [ranked] are pairwise different. *)
Lemma ranked_slots_NoDup pick (scores : gmap nat R) :
  admissible pick → NoDup (sd_idx <$> insertionSort (collect (pick scores))).
Proof.
  intros Hpick. rewrite insertionSort_perm. unfold collect.
  rewrite (Hpick scores). rewrite <- list_fmap_compose.
  apply (NoDup_fst_map_to_list scores).
Qed.

Lemma NoDup_lookup_URL (ds : list Doc) i j d d' :
  NoDup (URL <$> ds) → ds !! i = Some d → ds !! j = Some d' → URL d = URL d' → i = j.
Proof.
  intros Hnd Hi Hj Hurl. eapply NoDup_lookup; [exact Hnd| |].
  - rewrite list_lookup_fmap, Hi. reflexivity.
  - rewrite list_lookup_fmap, Hj. cbn. by rewrite Hurl.
Qed.

Lemma results_URLs_NoDup e tokens maxScore sds results :
  NoDup (URL <$> docs e) → NoDup (sd_idx <$> sds) →
  Forall2 (resultFor e tokens maxScore) sds results →
  NoDup (RURL <$> results).
Proof.
  intros Hurls Hnd H2. induction H2 as [|sd r sds rs Hrel H2 IH]; [constructor|].
  cbn [fmap list_fmap] in *. apply NoDup_cons in Hnd as [Hnew Hnd].
  apply NoDup_cons. split; [|by apply IH].
  intros Hin. apply list_elem_of_fmap in Hin as (r' & Hurl & Hr').
  destruct (Forall2_elem_r _ _ _ _ H2 Hr') as (sd' & Hsd' & (d' & Hl' & _ & Hu' & _)).
  destruct Hrel as (d & Hl & _ & Hu & _).
  assert (Heq : sd_idx sd = sd_idx sd').
  { eapply NoDup_lookup_URL; [exact Hurls|exact Hl|exact Hl'|]. congruence. }
  apply Hnew. rewrite Heq. apply list_elem_of_fmap. by exists sd'.
Qed.

(** X9. A result list of [Search] on a reachable engine has at most
    [topK] entries and at most one per stored document: the URLs are
    pairwise different, and each entry carries the title and URL of a
    stored document whose slot is a candidate of the query.  When the
    average document length is positive (all scores are numbers) the
    scores do not increase along the list. *)
Theorem X9_result_list_shape e pick query topK results :
  reachable e → goSized e → admissible pick → (0 <= topK)%Z →
  Search pick e query topK = Some results →
  (length results <= Z.to_nat topK)%nat
  ∧ (length results <= DocCount e)%nat
  ∧ NoDup (RURL <$> results)
  ∧ (0 < avgDocLen e → StronglySorted (λ a b, Score b <= Score a) results)
  ∧ ∀ r, r ∈ results →
         ∃ i doc, docs e !! i = Some doc ∧ candidate e (tokenize query) i
                  ∧ RURL r = URL doc ∧ RTitle r = Title doc.
Proof.
  intros Hreach Hsize Hpick HtopK Hrun.
  pose proof (reachable_postingsInRange e Hreach) as Hr.
  pose proof (reachable_keysNonEmpty e Hreach) as Hk.
  pose proof (reachable_URLs e Hreach) as Hurls.
  destruct (decide (docs e = [] ∨ tokenize query = [])) as [Hempty|Hfull].
  { rewrite Search_empty in Hrun by exact Hempty. injection Hrun as <-.
    cbn. split; [lia|]. split; [lia|]. split; [constructor|].
    split; [intros _; constructor|]. intros r Hin. by apply elem_of_nil in Hin. }
  assert (Hd : docs e ≠ []) by tauto. assert (Ht : tokenize query ≠ []) by tauto.
  destruct (Search_run e pick query topK Hr Hk Hsize Hpick HtopK Hd Ht)
    as (scores & ranked & results' & Hsc & Hranked & Helem & Hdesc & Hrun' & Hres).
  rewrite Hrun in Hrun'. injection Hrun' as <-.
  destruct (searchScores_spec e (tokenize query) Hr Hk) as (scores' & Hsc' & Hdom & _ & _).
  cbv zeta in Hsc. rewrite Hsc in Hsc'. injection Hsc' as <-.
  assert (Hnd : NoDup (RURL <$> results)).
  { eapply results_URLs_NoDup; [exact Hurls| |exact Hres].
    rewrite fmap_take. eapply sublist_NoDup; [|apply sublist_take].
    subst ranked. by apply ranked_slots_NoDup. }
  split; [|split; [|split; [exact Hnd|split]]].
  - apply Forall2_length in Hres. rewrite <- Hres, length_take. lia.
  - unfold DocCount. rewrite <- (length_fmap RURL results), <- (length_fmap URL (docs e)).
    apply submseteq_length, NoDup_submseteq; [exact Hnd|].
    intros u Hu. apply list_elem_of_fmap in Hu as (r & -> & Hin).
    destruct (Forall2_elem_r _ _ _ _ Hres Hin) as (sd & _ & (doc & Hl & _ & Hu & _)).
    rewrite Hu. apply list_elem_of_fmap. exists doc. split; [reflexivity|].
    apply list_elem_of_lookup. by exists (sd_idx sd).
  - intros _. eapply Forall2_sorted; [exact Hres|apply descending_take; exact Hdesc|].
    intros a b x y (_ & _ & _ & _ & _ & ->) (_ & _ & _ & _ & _ & ->) Hab.
    by apply normalized_monotone.
  - intros r Hin.
    destruct (Forall2_elem_r _ _ _ _ Hres Hin) as (sd & Hsd & (doc & Hl & Ht' & Hu & _)).
    exists (sd_idx sd), doc. split; [exact Hl|]. split; [|split; assumption].
    apply Hdom. apply elem_of_dom. exists (sd_score sd). apply Helem.
    apply elem_of_take in Hsd as (i & Hi & _). apply list_elem_of_lookup. by exists i.
Qed.

Lemma X9_result_list_shape_witness :
  ∃ results,
    Search map_to_list rigidEngine "rigid" 5 = Some results
    ∧ (length results <= Z.to_nat 5)%nat
    ∧ (length results <= DocCount rigidEngine)%nat
    ∧ NoDup (RURL <$> results)
    ∧ (0 < avgDocLen rigidEngine → StronglySorted (λ a b, Score b <= Score a) results)
    ∧ ∀ r, r ∈ results →
           ∃ i doc, docs rigidEngine !! i = Some doc
                    ∧ candidate rigidEngine (tokenize "rigid") i
                    ∧ RURL r = URL doc ∧ RTitle r = Title doc.
Proof.
  assert (Hreach : reachable rigidEngine) by apply reach_add, reach_new.
  destruct (Search_run rigidEngine map_to_list "rigid" 5)
    as (scores & ranked & results & _ & _ & _ & _ & Hrun & _).
  - apply reachable_postingsInRange. exact Hreach.
  - apply reachable_keysNonEmpty. exact Hreach.
  - apply rigidEngine_goSized.
  - apply admissible_map_to_list.
  - lia.
  - vm_compute. discriminate.
  - vm_compute. discriminate.
  - exists results. split; [exact Hrun|].
    apply (X9_result_list_shape rigidEngine map_to_list "rigid" 5 results).
    + exact Hreach.
    + apply rigidEngine_goSized.
    + apply admissible_map_to_list.
    + lia.
    + exact Hrun.
Defined.

(** ** Recall *)




(** ** The score of a slot *)

(** X11. The score map of a query on a reachable engine whose average
    document length is positive (so that every score is a number): it has
    an entry exactly for the candidate slots, and the entry of a slot is the sum,
    over the query tokens (repeated ones again), of the exact-term
    contribution with weight 1.0 and the contributions with weight 0.7 of
    the indexed terms the token is a proper prefix of, plus 2.0 for each
    query token found in the lowercased title of the slot's document. *)
Theorem X11_score_decomposition e tokens :
  reachable e → 0 < avgDocLen e →
  ∃ scores,
    searchScores e tokens = Some scores
    ∧ (∀ idx, is_Some (scores !! idx) ↔ candidate e tokens idx)
    ∧ (∀ idx s, scores !! idx = Some s →
         ∃ doc,
           docs e !! idx = Some doc
           ∧ s = sumOver (λ t, termScore e t (INR (length (docs e))) (avgDocLen e) 1.0 idx
                               + prefixScore e t (indexKeys e) (INR (length (docs e)))
                                   (avgDocLen e) idx) tokens
                 + 2.0 * INR (titleHits (ToLower (Title doc)) tokens)).
Proof.
  intros Hreach _.
  pose proof (reachable_postingsInRange e Hreach) as Hr.
  pose proof (reachable_keysNonEmpty e Hreach) as Hk.
  destruct (searchScores_spec e tokens Hr Hk) as (scores & Hsc & Hdom & Hrange & Hval).
  exists scores. split; [exact Hsc|]. split.
  - intros idx. rewrite <- Hdom. symmetry. apply elem_of_dom.
  - intros idx s Hs.
    assert (Hlt : (idx < length (docs e))%nat).
    { apply Hrange, elem_of_dom. by eexists. }
    destruct (lookup_lt_is_Some_2 _ _ Hlt) as [doc Hdoc].
    exists doc. split; [exact Hdoc|].
    specialize (Hval idx). unfold scoreOf in Hval. rewrite Hs in Hval. cbn in Hval.
    rewrite Hval. unfold totalScore, titleScore. rewrite Hdoc. reflexivity.
Qed.


Lemma X11_score_decomposition_witness :
  ∃ scores, searchScores tagEngine ["physics"] = Some scores.
Proof.
  destruct (X11_score_decomposition tagEngine ["physics"]) as (scores & Hsc & _).
  - apply reach_add, reach_new.
  - rewrite tagEngine_avgDocLen. lra.
  - exists scores. exact Hsc.
Defined.

(** ** The insertion sort is stable *)

Lemma sift_sameScore s x before :
  List.filter (sameScore s) (sift x before) = List.filter (sameScore s) (x :: before).
Proof.
  induction before as [|p rest IH]; [reflexivity|]. cbn [sift].
  destruct (Rgt_dec (sd_score x) (sd_score p)) as [Hgt|Hle]; [|reflexivity].
  cbn [List.filter]. rewrite IH. cbn [List.filter]. unfold sameScore.
  destruct (Req_dec_T (sd_score p) s) as [Hp|Hp];
    destruct (Req_dec_T (sd_score x) s) as [Hx|Hx]; try reflexivity.
  exfalso. lra.
Qed.

Lemma insertion_sameScore s ranked : ∀ before,
  List.filter (sameScore s) (fold_left (λ before x, sift x before) ranked before)
  = List.filter (sameScore s) (rev ranked ++ before).
Proof.
  induction ranked as [|x rest IH]; intros before; [reflexivity|].
  cbn [fold_left rev]. rewrite IH, !List.filter_app, sift_sameScore.
  rewrite <- !List.filter_app, <- app_assoc. reflexivity.
Qed.

Lemma descending_before l x rest a :
  descending (l ++ x :: rest) → a ∈ l → sd_score x <= sd_score a.
Proof.
  unfold descending. induction l as [|b l IH]; intros Hs Ha.
  - by apply elem_of_nil in Ha.
  - cbn [app] in Hs. apply StronglySorted_inv in Hs as [Hs Hb].
    apply elem_of_cons in Ha as [->|Ha]; [|by apply IH].
    rewrite Forall_forall in Hb. apply Hb. apply elem_of_app. right. left.
Qed.

Lemma insertion_sorted_input ranked : ∀ before,
  descending (rev before ++ ranked) →
  fold_left (λ before x, sift x before) ranked before = rev ranked ++ before.
Proof.
  induction ranked as [|x rest IH]; intros before Hs; [reflexivity|].
  cbn [fold_left rev].
  assert (Hstay : sift x before = x :: before).
  { destruct before as [|p before']; [reflexivity|]. cbn [sift].
    destruct (Rgt_dec (sd_score x) (sd_score p)) as [Hgt|_]; [|reflexivity].
    exfalso. assert (sd_score x <= sd_score p); [|lra].
    eapply descending_before; [exact Hs|].
    cbn [rev]. apply elem_of_app. right. left. }
  rewrite Hstay, IH.
  - rewrite <- app_assoc. reflexivity.
  - cbn [rev]. rewrite <- app_assoc. exact Hs.
Qed.

(** X12. The insertion sort of [Search] returns the entries it was given,
    ordered by decreasing score; entries of equal score keep the order
    they had in the input, and an array that is already ordered is
    returned as it is. *)
Theorem X12_insertion_sort_is_stable ranked :
  insertionSort ranked ≡ₚ ranked
  ∧ descending (insertionSort ranked)
  ∧ (∀ s, List.filter (sameScore s) (insertionSort ranked)
          = List.filter (sameScore s) ranked)
  ∧ (descending ranked → insertionSort ranked = ranked).
Proof.
  split; [apply insertionSort_perm|]. split; [apply insertionSort_descending|]. split.
  - intros s. unfold insertionSort.
    rewrite List.filter_rev, insertion_sameScore, app_nil_r.
    rewrite List.filter_rev, rev_involutive. reflexivity.
  - intros Hs. unfold insertionSort. rewrite insertion_sorted_input by exact Hs.
    rewrite app_nil_r. apply rev_involutive.
Qed.

(** ** Links of results *)

Lemma toLinksLoop_spec results : ∀ seen links,
  NoDup (LURL <$> links) →
  (∀ u, u ∈ LURL <$> links → u ∈ seen) →
  NoDup (LURL <$> toLinksLoop results seen links)
  ∧ (∀ u, u ∈ LURL <$> toLinksLoop results seen links
          ↔ u ∈ LURL <$> links ∨ (u ∈ RURL <$> results ∧ u ∉ seen))
  ∧ (length (toLinksLoop results seen links) <= length links + length results)%nat.
Proof.
  induction results as [|r rest IH]; intros seen links Hnd Hseen; cbn [toLinksLoop].
  - split; [exact Hnd|]. split; [|cbn; lia]. intros u. split; [by left|].
    intros [H|[H _]]; [exact H|]. by apply elem_of_nil in H.
  - destruct (decide (RURL r ∈ seen)) as [Hin|Hnew].
    + destruct (IH seen links Hnd Hseen) as (H1 & H2 & H3).
      split; [exact H1|]. split; [|cbn [length]; lia].
      intros u. rewrite H2. cbn [fmap list_fmap]. rewrite elem_of_cons. split.
      * intros [H|[H Hn]]; [by left|right]. split; [by right|exact Hn].
      * intros [H|[[->|H] Hn]]; [by left|contradiction|right; by split].
    + destruct (IH ({[RURL r]} ∪ seen) (links ++ [linkOf r])) as (H1 & H2 & H3).
      * rewrite fmap_app. apply NoDup_app. split; [exact Hnd|]. split.
        -- intros u Hu Hu'. cbn in Hu'. apply list_elem_of_singleton in Hu' as ->.
           apply Hnew. by apply Hseen.
        -- cbn. apply NoDup_singleton.
      * intros u. rewrite fmap_app, elem_of_app, elem_of_union, elem_of_singleton.
        cbn. rewrite list_elem_of_singleton. intros [H|H]; [right; by apply Hseen|by left].
      * fold (linkOf r). split; [exact H1|]. split.
        -- intros u. rewrite H2, fmap_app, elem_of_app. cbn [fmap list_fmap].
           rewrite list_elem_of_singleton, elem_of_cons, elem_of_union, elem_of_singleton.
           cbn [linkOf LURL]. split.
           ++ intros [[H|H]|[H Hn]].
              ** by left.
              ** right. subst u. split; [by left|exact Hnew].
              ** right. split; [by right|]. intros Hs. apply Hn. by right.
           ++ intros [H|[[H|H] Hn]].
              ** by left; left.
              ** by left; right.
              ** destruct (decide (u = RURL r)) as [Heq|Hne]; [by left; right|].
                 right. split; [exact H|]. intros [Hs|Hs]; contradiction.
        -- rewrite length_app in H3. cbn [length] in *. lia.
Qed.

Lemma toLinksLoop_distinct results : ∀ seen links,
  NoDup (RURL <$> results) →
  (∀ u, u ∈ RURL <$> results → u ∉ seen) →
  toLinksLoop results seen links = links ++ (linkOf <$> results).
Proof.
  induction results as [|r rest IH]; intros seen links Hnd Hfresh; cbn [toLinksLoop].
  - cbn. by rewrite app_nil_r.
  - cbn [fmap list_fmap] in Hnd. apply NoDup_cons in Hnd as [Hr Hnd].
    rewrite decide_False by (apply Hfresh; left).
    fold (linkOf r). rewrite IH.
    + cbn [fmap list_fmap]. rewrite <- app_assoc. reflexivity.
    + exact Hnd.
    + intros u Hu. rewrite elem_of_union, elem_of_singleton. intros [->|Hs].
      * contradiction.
      * revert Hs. apply Hfresh. by right.
Qed.

(** X13. [toLinks] gives one link per URL of the results: the URLs of the
    links are pairwise different, they are exactly the URLs of the
    results, and there are no more links than results; when the URLs of
    the results are already pairwise different every result gets its link,
    in order. *)
Theorem X13_links_have_distinct_urls results :
  NoDup (LURL <$> toLinks results)
  ∧ (∀ u, u ∈ LURL <$> toLinks results ↔ u ∈ RURL <$> results)
  ∧ (length (toLinks results) <= length results)%nat
  ∧ (NoDup (RURL <$> results) → toLinks results = linkOf <$> results).
Proof.
  destruct (toLinksLoop_spec results ∅ []) as (H1 & H2 & H3).
  { constructor. }
  { intros u Hu. by apply elem_of_nil in Hu. }
  split; [exact H1|]. split; [|split; [exact H3|]].
  - intros u. unfold toLinks. rewrite H2. split.
    + intros [H|[H _]]; [by apply elem_of_nil in H|exact H].
    + intros H. right. split; [exact H|]. apply not_elem_of_empty.
  - intros Hnd. unfold toLinks. rewrite toLinksLoop_distinct; [reflexivity|exact Hnd|].
    intros u _. apply not_elem_of_empty.
Qed.

(** ** The URLs of the store *)

Lemma AddDoc_URL_list e doc :
  URL <$> docs (AddDoc e doc)
  = if decide (URL doc ∈ URL <$> docs e) then URL <$> docs e
    else (URL <$> docs e) ++ [URL doc].
Proof.
  destruct (findURL (URL doc) (docs e) 0) as [i|] eqn:H.
  - destruct (AddDoc_replace _ _ _ H) as (-> & _ & _).
    apply findURL_Some in H as [_ (d & Hl & Hu)]. rewrite Nat.sub_0_r in Hl.
    assert (Hin : URL doc ∈ URL <$> docs e).
    { apply list_elem_of_fmap. exists d. split; [by rewrite Hu|].
      apply list_elem_of_lookup. by exists i. }
    rewrite decide_True by exact Hin.
    rewrite list_fmap_insert. apply list_insert_id.
    rewrite list_lookup_fmap, Hl. cbn. by rewrite Hu.
  - destruct (AddDoc_append _ _ H) as (-> & _).
    apply findURL_None in H. rewrite decide_False by exact H.
    by rewrite fmap_app.
Qed.

Lemma fold_AddDoc_URLs ds : ∀ e,
  NoDup (URL <$> docs e) →
  NoDup (URL <$> docs (fold_left AddDoc ds e))
  ∧ (∀ u, u ∈ URL <$> docs (fold_left AddDoc ds e)
          ↔ u ∈ URL <$> docs e ∨ u ∈ URL <$> ds)
  ∧ ∃ added, URL <$> docs (fold_left AddDoc ds e) = (URL <$> docs e) ++ added.
Proof.
  induction ds as [|d ds IH]; intros e Hnd; cbn [fold_left].
  - split; [exact Hnd|]. split; [|exists []; by rewrite app_nil_r].
    intros u. split; [by left|]. intros [H|H]; [exact H|by apply elem_of_nil in H].
  - destruct (IH (AddDoc e d) (AddDoc_URLs e d Hnd)) as (H1 & H2 & added & H3).
    split; [exact H1|]. split.
    + intros u. rewrite H2, AddDoc_URL_list. cbn [fmap list_fmap].
      rewrite elem_of_cons. destruct (decide (URL d ∈ URL <$> docs e)) as [Hin|Hnew].
      * split; [intros [H|H]; [by left|by right; right]|].
        intros [H|[->|H]]; [by left|by left|by right].
      * rewrite elem_of_app, list_elem_of_singleton. tauto.
    + rewrite H3, AddDoc_URL_list.
      destruct (decide (URL d ∈ URL <$> docs e)); [by exists added|].
      exists (URL d :: added). by rewrite <- app_assoc.
Qed.

(** X14. After any sequence of upserts into the fresh engine [DocCount] is
    the number of distinct URLs that were upserted. *)
Theorem X14_count_is_number_of_urls ds :
  DocCount (fold_left AddDoc ds NewEngine)
  = size (list_to_set (URL <$> ds) : gset string).
Proof.
  destruct (fold_AddDoc_URLs ds NewEngine) as (Hnd & Helem & _); [constructor|].
  unfold DocCount. rewrite <- (length_fmap URL).
  rewrite <- (size_list_to_set (C := gset string) _ Hnd).
  f_equal. apply set_eq. intros u. rewrite !elem_of_list_to_set, Helem.
  split; [|by right]. intros [H|H]; [by apply elem_of_nil in H|exact H].
Qed.

(** X15. [AddResults] keeps every document slot it found (the URLs stored
    before stay in their slots), stores a document under the URL of each
    result, and raises [DocCount] by at most the number of results. *)
Theorem X15_add_results e results :
  reachable e →
  reachable (AddResults e results)
  ∧ (∃ added, URL <$> docs (AddResults e results) = (URL <$> docs e) ++ added)
  ∧ (∀ r, r ∈ results → RURL r ∈ URL <$> docs (AddResults e results))
  ∧ (DocCount e <= DocCount (AddResults e results) <= DocCount e + length results)%nat.
Proof.
  intros Hreach. unfold AddResults.
  set (toDoc := λ r, {| ID := RURL r; Title := RTitle r; URL := RURL r;
                        Content := Excerpt r; Tags := [] |}).
  assert (Hfold : ∀ rs e0,
            fold_left (λ e r, AddDoc e (toDoc r)) rs e0
            = fold_left AddDoc (toDoc <$> rs) e0).
  { induction rs as [|r rs IH]; intros e0; [reflexivity|]. cbn. apply IH. }
  change (fold_left _ results e) with (fold_left (λ e r, AddDoc e (toDoc r)) results e).
  rewrite Hfold.
  destruct (fold_AddDoc_URLs (toDoc <$> results) e (reachable_URLs e Hreach))
    as (Hnd & Helem & added & Hadd).
  split; [|split; [by exists added|split]].
  - clear Hnd Helem Hadd Hfold. revert e Hreach.
    induction results as [|r rs IH]; intros e Hreach; [exact Hreach|].
    cbn. apply IH. by apply reach_add.
  - intros r Hr. apply Helem. right. rewrite <- list_fmap_compose.
    apply list_elem_of_fmap. exists r. split; [reflexivity|exact Hr].
  - unfold DocCount. rewrite <- !(length_fmap URL), Hadd, length_app, length_fmap.
    split; [lia|]. apply Nat.add_le_mono_l.
    assert (Hsub : added ⊆+ URL <$> (toDoc <$> results)).
    { apply NoDup_submseteq.
      - rewrite Hadd in Hnd. by apply NoDup_app in Hnd as (_ & _ & Hnd).
      - intros u Hu. assert (Hin : u ∈ (URL <$> docs e) ++ added)
          by (apply elem_of_app; by right).
        rewrite <- Hadd in Hin. apply Helem in Hin as [Hin|Hin]; [|exact Hin].
        exfalso. rewrite Hadd in Hnd. apply NoDup_app in Hnd as (_ & Hdis & _).
        by apply (Hdis u). }
    apply submseteq_length in Hsub. by rewrite !length_fmap in Hsub.
Qed.

Lemma X15_add_results_witness :
  reachable (AddResults tagEngine [sampleResult])
  ∧ (∃ added, URL <$> docs (AddResults tagEngine [sampleResult])
              = (URL <$> docs tagEngine) ++ added)
  ∧ (∀ r, r ∈ [sampleResult] →
          RURL r ∈ URL <$> docs (AddResults tagEngine [sampleResult]))
  ∧ (DocCount tagEngine
     <= DocCount (AddResults tagEngine [sampleResult])
     <= DocCount tagEngine + length [sampleResult])%nat.
Proof.
  apply (X15_add_results tagEngine). apply reach_add, reach_new.
Defined.

(** ** More on excerpts *)

Lemma string_app_length (s t : string) :
  String.length (s +:+ t) = (String.length s + String.length t)%nat.
Proof.
  induction s as [|c s IH]; [reflexivity|].
  change (String c s +:+ t) with (String c (s +:+ t)). cbn [String.length].
  by rewrite IH.
Qed.

Lemma upto_length_le n : ∀ s, (String.length (upto n s) <= n)%nat.
Proof.
  induction n as [|n IH]; intros s; [reflexivity|].
  destruct s as [|c s]; cbn [upto String.length]; [lia|].
  specialize (IH s). lia.
Qed.


Lemma trimLeft_length s : (String.length (trimLeft s) <= String.length s)%nat.
Proof.
  induction s as [|c s IH]; [reflexivity|]. cbn [trimLeft].
  destruct (isSpace c); cbn [String.length]; lia.
Qed.

Lemma trimRight_length s : (String.length (trimRight s) <= String.length s)%nat.
Proof.
  induction s as [|c s IH]; [reflexivity|]. cbn [trimRight].
  destruct (trimRight s) as [|c' t] eqn:Ht.
  - destruct (isSpace c); cbn [String.length]; lia.
  - cbn [String.length] in *. lia.
Qed.

Lemma TrimSpace_length s : (String.length (TrimSpace s) <= String.length s)%nat.
Proof.
  unfold TrimSpace. pose proof (trimRight_length (trimLeft s)).
  pose proof (trimLeft_length s). lia.
Qed.

Lemma excerptFrom_length content start maxLen :
  (String.length (excerptFrom content start maxLen) <= maxLen + 6)%nat.
Proof.
  unfold excerptFrom. cbv zeta. rewrite !string_app_length.
  pose proof (TrimSpace_length
    (upto (Nat.min (start + maxLen) (String.length content) - start)
       (from start content))) as Htrim.
  pose proof (upto_length_le
    (Nat.min (start + maxLen) (String.length content) - start)
    (from start content)) as Hcut.
  destruct (0 <? start)%nat;
    destruct (Nat.min (start + maxLen) (String.length content) <? String.length content)%nat;
    cbn [String.length]; lia.
Qed.

(** X16. The excerpt never has more than [maxLen] bytes of text and the
    two marks of three bytes. *)
Theorem X16_excerpt_length content tokens maxLen excerpt :
  (0 <= maxLen)%Z →
  (Z.of_nat (String.length content) + maxLen < 2 ^ 63)%Z →
  extractExcerpt content tokens maxLen = Some excerpt →
  (String.length excerpt <= Z.to_nat maxLen + 6)%nat.
Proof.
  intros Hmax Hrange Hrun.
  destruct (decide (content = EmptyString)) as [->|Hne].
  - cbn in Hrun. injection Hrun as <-. cbn. lia.
  - destruct (extractExcerpt_run content tokens maxLen Hne Hmax Hrange)
      as (bp & _ & Hrun').
    rewrite Hrun in Hrun'. injection Hrun' as ->. apply excerptFrom_length.
Qed.

Lemma X16_excerpt_length_witness :
  (String.length "aa..........." <= Z.to_nat 10 + 6)%nat.
Proof.
  apply (X16_excerpt_length sampleBody sampleTokens 10 "aa...........").
  - lia.
  - vm_compute. reflexivity.
  - vm_compute. reflexivity.
Defined.



(** X18. With a negative [maxLen] the slice bounds are inverted:
    [extractExcerpt] panics on every text that is not empty (and returns
    the empty excerpt on the empty text). *)
Theorem X18_negative_maxLen_panics content tokens maxLen :
  (- 2 ^ 63 <= maxLen < 0)%Z →
  (Z.of_nat (String.length content) < 2 ^ 63)%Z →
  (content ≠ EmptyString → extractExcerpt content tokens maxLen = None)
  ∧ (content = EmptyString → extractExcerpt content tokens maxLen = Some EmptyString).
Proof.
  intros Hmax Hsize. split; [|by intros ->].
  intros Hne.
  assert (Hlen : (0 < String.length content)%nat).
  { destruct content; [done|cbn; lia]. }
  destruct (windowLoop_spec (ToLower content) tokens
              (S (String.length (ToLower content))) 0 0 0)
    as (bp & bh & K & Hrun & Hinv & Hend).
  { lia. }
  { left. split; [done|]. split; [done|]. intros j Hj. lia. }
  pose proof (bestSoFar_final _ _ _ _ _ Hinv Hend) as Hbest.
  unfold extractExcerpt.
  destruct (String.length content =? 0)%nat eqn:H0.
  { apply Nat.eqb_eq in H0. lia. }
  change (50 * 0)%nat with 0%nat in Hrun. rewrite Hrun. cbn [mbind option_bind].
  set (start := (if (50 <? bp)%nat then bp - 50 else bp)%nat).
  assert (Hstart : (start < String.length content)%nat).
  { destruct (firstBest_position _ _ _ Hbest) as [->|(k & -> & Hk)].
    - subst start. cbn [Nat.ltb Nat.leb]. lia.
    - rewrite ToLower_length in Hk. subst start.
      destruct (50 <? 50 * k)%nat; lia. }
  rewrite wrap64_small by lia.
  destruct (Z.ltb_spec (Z.of_nat (String.length content)) (Z.of_nat start + maxLen))
    as [Hlt|_]; [lia|].
  destruct (Z.ltb_spec (Z.of_nat start + maxLen) 0) as [_|Hpos]; [reflexivity|].
  unfold slice. rewrite decide_False by lia. reflexivity.
Qed.

Lemma X18_negative_maxLen_panics_witness :
  ("hello" ≠ EmptyString → extractExcerpt "hello" ["hello"] (-1) = None)
  ∧ ("hello" = EmptyString → extractExcerpt "hello" ["hello"] (-1) = Some EmptyString).
Proof.
  apply (X18_negative_maxLen_panics "hello" ["hello"] (-1)).
  - lia.
  - vm_compute. reflexivity.
Defined.

(** ** Where the excerpt starts *)




(** ** Saturation *)

(** X20. With a positive average length, [tfNorm] does not decrease when
    the term frequency grows and stays below [k1 + 1] = 2.5; when moreover
    the document frequency is at most the number of documents, the
    contribution idf * tfNorm * 1.0 does not decrease either and stays
    below idf * 2.5. *)
Theorem X20_term_frequency_saturates N df docLen avgLen tf1 tf2 :
  0 <= docLen → 0 < avgLen → (tf1 <= tf2)%nat →
  tfNorm tf1 docLen avgLen 1.5 0.75 <= tfNorm tf2 docLen avgLen 1.5 0.75
  ∧ tfNorm tf2 docLen avgLen 1.5 0.75 < 2.5
  ∧ (0 < df → df <= N →
     idfOf N df * tfNorm tf1 docLen avgLen 1.5 0.75 * 1.0
     <= idfOf N df * tfNorm tf2 docLen avgLen 1.5 0.75 * 1.0
     ∧ idfOf N df * tfNorm tf2 docLen avgLen 1.5 0.75 * 1.0 < idfOf N df * 2.5).
Proof.
  intros Hd Ha Htf.
  destruct (tfNorm_monotone tf1 tf2 docLen avgLen Hd Ha Htf) as [Hmono Hsat].
  split; [exact Hmono|]. split; [lra|]. intros Hdf Hle.
  split; [by apply contribution_monotone|].
  pose proof (idfOf_pos N df Hdf Hle) as Hidf.
  assert (idfOf N df * tfNorm tf2 docLen avgLen 1.5 0.75 < idfOf N df * (1.5 + 1))
    by (apply Rmult_lt_compat_l; assumption).
  lra.
Qed.

Lemma X20_term_frequency_saturates_witness :
  tfNorm 1 5 5 1.5 0.75 <= tfNorm 5 5 5 1.5 0.75
  ∧ tfNorm 5 5 5 1.5 0.75 < 2.5
  ∧ (0 < 1 → 1 <= 2 →
     idfOf 2 1 * tfNorm 1 5 5 1.5 0.75 * 1.0 <= idfOf 2 1 * tfNorm 5 5 5 1.5 0.75 * 1.0
     ∧ idfOf 2 1 * tfNorm 5 5 5 1.5 0.75 * 1.0 < idfOf 2 1 * 2.5).
Proof.
  apply (X20_term_frequency_saturates 2 1 5 5 1 5); [lra|lra|lia].
Defined.

(** ** A store built without a second upsert of a URL *)

Lemma reachable_fold ds : ∀ e, reachable e → reachable (fold_left AddDoc ds e).
Proof.
  induction ds as [|d ds IH]; intros e Hr; [exact Hr|]. cbn. apply IH. by apply reach_add.
Qed.

Lemma reachable_postings_nonempty e :
  reachable e → ∀ tok ps, index e !! tok = Some ps → ps ≠ [].
Proof.
  induction 1 as [|e d _ IH]; intros tok ps Hl.
  - cbn in Hl. by rewrite lookup_empty in Hl.
  - destruct (AddDoc_index_case e d) as (idx & _ & _ & Hix & _).
    rewrite Hix, reindexDoc_lookup in Hl.
    destruct (decide (tok ∈ tokenize (combined d))).
    + injection Hl as <-. intros Hnil. by apply app_eq_nil in Hnil as [_ Hnil].
    + by eapply IH.
Qed.

Lemma slotsWith_length ds tok : (length (slotsWith ds tok) <= length ds)%nat.
Proof.
  unfold slotsWith. etransitivity; [apply List.filter_length_le|].
  by rewrite List.length_seq.
Qed.

(** In a store built from documents with pairwise different URLs the
    document frequency of an indexed term is between 1 and the number of
    documents: its idf is positive. *)
Lemma fresh_build_idf ds tok postings :
  NoDup (URL <$> ds) →
  index (fold_left AddDoc ds NewEngine) !! tok = Some postings →
  postings = slotsWith ds tok
  ∧ (1 <= length postings <= length ds)%nat
  ∧ 0 < idfOf (INR (length ds)) (INR (length postings)).
Proof.
  intros Hnd Hl. destruct (fresh_build ds Hnd) as [Hdocs Hpost].
  assert (Heq : postings = slotsWith ds tok).
  { rewrite <- Hpost. unfold postingsOf. by rewrite Hl. }
  assert (Hne : postings ≠ []).
  { eapply reachable_postings_nonempty; [|exact Hl].
    apply reachable_fold, reach_new. }
  assert (Hlen : (1 <= length postings <= length ds)%nat).
  { split.
    - destruct postings; [done|cbn; lia].
    - rewrite Heq. apply slotsWith_length. }
  split; [exact Heq|]. split; [exact Hlen|].
  apply idfOf_pos.
  - apply lt_0_INR. lia.
  - apply le_INR. lia.
Qed.

(** X21. In a store built from documents with pairwise different URLs
    the postings of an indexed term are the slots of the documents that
    have the term, so its document frequency is between 1 and the number
    of documents and its idf is positive. *)
Theorem X21_fresh_store_idf_positive ds tok postings :
  NoDup (URL <$> ds) →
  index (fold_left AddDoc ds NewEngine) !! tok = Some postings →
  postings = slotsWith ds tok
  ∧ (1 <= length postings <= DocCount (fold_left AddDoc ds NewEngine))%nat
  ∧ 0 < idfOf (INR (DocCount (fold_left AddDoc ds NewEngine))) (INR (length postings)).
Proof.
  intros Hnd Hl. destruct (fresh_build ds Hnd) as [Hdocs _].
  unfold DocCount. rewrite Hdocs. by apply fresh_build_idf.
Qed.

Lemma X21_fresh_store_idf_positive_witness :
  [0; 1]%nat = slotsWith [docFive; docOne] "foo"
  ∧ (1 <= length [0; 1]%nat
     <= DocCount (fold_left AddDoc [docFive; docOne] NewEngine))%nat
  ∧ 0 < idfOf (INR (DocCount (fold_left AddDoc [docFive; docOne] NewEngine)))
          (INR (length [0; 1]%nat)).
Proof.
  apply (X21_fresh_store_idf_positive [docFive; docOne] "foo" [0; 1]%nat).
  - apply (bool_decide_unpack (NoDup _)). vm_compute. reflexivity.
  - vm_compute. reflexivity.
Defined.

(** ** Scores between 0 and 1 *)

Lemma tfNorm_nonneg tf docLen avgLen :
  0 <= docLen → 0 < avgLen → 0 <= tfNorm tf docLen avgLen 1.5 0.75.
Proof.
  intros Hd Ha. unfold tfNorm, Rdiv. apply Rmult_le_pos.
  - pose proof (pos_INR tf). nra.
  - left. apply Rinv_0_lt_compat. by apply tfNorm_denominator.
Qed.

Lemma perPosting_nonneg e tok idf avgLen boost idx :
  0 <= idf → 0 < avgLen → 0 <= boost →
  0 <= perPosting e tok idf avgLen 1.5 0.75 boost idx.
Proof.
  intros Hidf Ha Hb. unfold perPosting.
  destruct (docs e !! idx) as [doc|]; [|lra].
  destruct (countOccurrences tok (docText doc)) as [tf|]; [|lra].
  pose proof (tfNorm_nonneg tf (INR (length (tokenize (docText doc)))) avgLen
                (pos_INR _) Ha) as Htf.
  apply Rmult_le_pos; [apply Rmult_le_pos|]; assumption.
Qed.

Lemma sumOver_nonneg {A} (f : A → R) l : (∀ x, 0 <= f x) → 0 <= sumOver f l.
Proof.
  intros Hf. induction l as [|x l IH]; cbn [sumOver]; [lra|].
  specialize (Hf x). lra.
Qed.

Lemma fresh_termScore_nonneg ds u avgLen boost idx :
  NoDup (URL <$> ds) → 0 < avgLen → 0 <= boost →
  0 <= termScore (fold_left AddDoc ds NewEngine) u
         (INR (length (docs (fold_left AddDoc ds NewEngine)))) avgLen boost idx.
Proof.
  intros Hnd Ha Hb. unfold termScore.
  destruct (index (fold_left AddDoc ds NewEngine) !! u) as [ps|] eqn:Hl; [|lra].
  destruct (fresh_build ds Hnd) as [Hdocs _]. rewrite Hdocs.
  destruct (fresh_build_idf ds u ps Hnd Hl) as (_ & _ & Hidf).
  apply Rmult_le_pos; [apply pos_INR|].
  apply perPosting_nonneg; [lra|exact Ha|exact Hb].
Qed.

Lemma fresh_totalScore_nonneg ds tokens idx :
  NoDup (URL <$> ds) → 0 < avgDocLen (fold_left AddDoc ds NewEngine) →
  0 <= totalScore (fold_left AddDoc ds NewEngine) tokens idx.
Proof.
  intros Hnd Ha. unfold totalScore. cbv zeta. apply Rplus_le_le_0_compat.
  - apply sumOver_nonneg. intros t. apply Rplus_le_le_0_compat.
    + apply fresh_termScore_nonneg; [exact Hnd|exact Ha|lra].
    + unfold prefixScore. apply sumOver_nonneg. intros u.
      destruct (prefixMatch t u); [|lra].
      apply fresh_termScore_nonneg; [exact Hnd|exact Ha|lra].
  - unfold titleScore. destruct (docs _ !! idx) as [doc|]; [|lra].
    pose proof (pos_INR (titleHits (ToLower (Title doc)) tokens)). lra.
Qed.

Lemma normalized_range maxScore raw :
  0 <= raw → raw <= maxScore → 0 <= normalized maxScore raw <= 1.
Proof.
  intros H0 Hle. unfold normalized. destruct (Rgt_dec maxScore 0) as [Hpos|_]; [|lra].
  assert (Hinv : 0 < / maxScore) by (apply Rinv_0_lt_compat; lra).
  unfold Rdiv. split.
  - apply Rmult_le_pos; lra.
  - replace 1 with (maxScore * / maxScore) by (field; lra).
    apply Rmult_le_compat_r; lra.
Qed.

(** X22. On a store built from documents with pairwise different URLs
    and with a positive average document length, every score that
    [Search] returns lies between 0 and 1. *)
Theorem X22_scores_between_0_and_1 ds pick query topK results :
  NoDup (URL <$> ds) →
  goSized (fold_left AddDoc ds NewEngine) →
  0 < avgDocLen (fold_left AddDoc ds NewEngine) →
  admissible pick → (0 <= topK)%Z →
  Search pick (fold_left AddDoc ds NewEngine) query topK = Some results →
  ∀ r, r ∈ results → 0 <= Score r <= 1.
Proof.
  intros Hnd Hsize Havg Hpick HtopK Hrun r Hin.
  set (e := fold_left AddDoc ds NewEngine) in *.
  assert (Hreach : reachable e) by apply reachable_fold, reach_new.
  pose proof (reachable_postingsInRange e Hreach) as Hr.
  pose proof (reachable_keysNonEmpty e Hreach) as Hk.
  destruct (decide (docs e = [] ∨ tokenize query = [])) as [Hempty|Hfull].
  { rewrite Search_empty in Hrun by exact Hempty. injection Hrun as <-.
    by apply elem_of_nil in Hin. }
  assert (Hd : docs e ≠ []) by tauto. assert (Ht : tokenize query ≠ []) by tauto.
  destruct (Search_run e pick query topK Hr Hk Hsize Hpick HtopK Hd Ht)
    as (scores & ranked & results' & Hsc & _ & Helem & Hdesc & Hrun' & Hres).
  rewrite Hrun in Hrun'. injection Hrun' as <-.
  destruct (searchScores_spec e (tokenize query) Hr Hk) as (scores' & Hsc' & _ & _ & Hval).
  cbv zeta in Hsc. rewrite Hsc in Hsc'. injection Hsc' as <-.
  destruct (Forall2_elem_r _ _ _ _ Hres Hin) as (sd & Hsd & (doc & _ & _ & _ & _ & ->)).
  assert (Hsd' : sd ∈ ranked).
  { apply elem_of_take in Hsd as (i & Hi & _). apply list_elem_of_lookup. by exists i. }
  assert (Hraw : 0 <= sd_score sd).
  { apply Helem in Hsd'. specialize (Hval (sd_idx sd)). unfold scoreOf in Hval.
    rewrite Hsd' in Hval. cbn in Hval. rewrite Hval.
    by apply fresh_totalScore_nonneg. }
  destruct ranked as [|top rest]; [by apply elem_of_nil in Hsd'|].
  apply normalized_range; [exact Hraw|]. by eapply descending_head.
Qed.

Lemma X22_scores_between_0_and_1_witness :
  ∃ results,
    Search map_to_list (fold_left AddDoc [docTagged] NewEngine) "intro" 5 = Some results
    ∧ ∀ r, r ∈ results → 0 <= Score r <= 1.
Proof.
  assert (Hreach : reachable tagEngine) by apply reach_add, reach_new.
  destruct (Search_run tagEngine map_to_list "intro" 5)
    as (scores & ranked & results & _ & _ & _ & _ & Hrun & _).
  - apply reachable_postingsInRange. exact Hreach.
  - apply reachable_keysNonEmpty. exact Hreach.
  - apply tagEngine_goSized.
  - apply admissible_map_to_list.
  - lia.
  - vm_compute. discriminate.
  - vm_compute. discriminate.
  - exists results. split; [exact Hrun|].
    apply (X22_scores_between_0_and_1 [docTagged] map_to_list "intro" 5 results).
    + apply (bool_decide_unpack (NoDup _)). vm_compute. reflexivity.
    + apply tagEngine_goSized.
    + change (fold_left AddDoc [docTagged] NewEngine) with tagEngine.
      rewrite tagEngine_avgDocLen. lra.
    + apply admissible_map_to_list.
    + lia.
    + exact Hrun.
Defined.

(** ** Results for a smaller [topK] *)

Lemma resultFor_unique e tokens maxScore sd r r' :
  resultFor e tokens maxScore sd r → resultFor e tokens maxScore sd r' → r = r'.
Proof.
  intros (d & Hl & Ht & Hu & He & Hs) (d' & Hl' & Ht' & Hu' & He' & Hs').
  rewrite Hl in Hl'. injection Hl' as <-. rewrite He in He'. injection He' as He'.
  destruct r, r'. cbn in *. congruence.
Qed.

Lemma Forall2_resultFor_take e tokens maxScore ranked : ∀ n m rs rs',
  (n <= m)%nat →
  Forall2 (resultFor e tokens maxScore) (take n ranked) rs →
  Forall2 (resultFor e tokens maxScore) (take m ranked) rs' →
  rs = take n rs'.
Proof.
  induction ranked as [|sd ranked IH]; intros n m rs rs' Hle H1 H2.
  - rewrite take_nil in H1, H2. apply Forall2_nil_inv_l in H1, H2. subst.
    by rewrite take_nil.
  - destruct n as [|n].
    + rewrite take_0 in H1. apply Forall2_nil_inv_l in H1. subst. by rewrite take_0.
    + destruct m as [|m]; [lia|]. cbn [take] in H1, H2.
      apply Forall2_cons_inv_l in H1 as (r & rs1 & Hr & H1 & ->).
      apply Forall2_cons_inv_l in H2 as (r' & rs2 & Hr' & H2 & ->).
      cbn [take]. rewrite (resultFor_unique _ _ _ _ _ _ Hr Hr'). f_equal.
      apply (IH n m); [lia|exact H1|exact H2].
Qed.

(** X23. For one and the same order of the candidates, asking for fewer
    results gives a prefix: the result list for [k1] is the first [k1]
    entries of the result list for any larger [k2]. *)
Theorem X23_smaller_topK_gives_prefix e pick query k1 k2 r1 r2 :
  reachable e → goSized e → admissible pick →
  (0 <= k1 <= k2)%Z →
  Search pick e query k1 = Some r1 →
  Search pick e query k2 = Some r2 →
  r1 = take (Z.to_nat k1) r2.
Proof.
  intros Hreach Hsize Hpick Hk H1 H2.
  pose proof (reachable_postingsInRange e Hreach) as Hr.
  pose proof (reachable_keysNonEmpty e Hreach) as Hke.
  destruct (decide (docs e = [] ∨ tokenize query = [])) as [Hempty|Hfull].
  { rewrite Search_empty in H1, H2 by exact Hempty.
    injection H1 as <-. injection H2 as <-. by rewrite take_nil. }
  assert (Hd : docs e ≠ []) by tauto. assert (Ht : tokenize query ≠ []) by tauto.
  destruct (Search_run e pick query k1 Hr Hke Hsize Hpick) as
    (s1 & ranked1 & res1 & Hs1 & Hrk1 & _ & _ & Hrun1 & Hres1); [lia|exact Hd|exact Ht|].
  destruct (Search_run e pick query k2 Hr Hke Hsize Hpick) as
    (s2 & ranked2 & res2 & Hs2 & Hrk2 & _ & _ & Hrun2 & Hres2); [lia|exact Hd|exact Ht|].
  rewrite H1 in Hrun1. injection Hrun1 as <-.
  rewrite H2 in Hrun2. injection Hrun2 as <-.
  cbv zeta in Hs1, Hs2. rewrite Hs1 in Hs2. injection Hs2 as <-.
  subst ranked1 ranked2.
  eapply Forall2_resultFor_take; [|exact Hres1|exact Hres2]. lia.
Qed.

Lemma X23_smaller_topK_gives_prefix_witness :
  ∃ r1 r2,
    Search map_to_list rigidEngine "rigid" 1 = Some r1
    ∧ Search map_to_list rigidEngine "rigid" 5 = Some r2
    ∧ r1 = take (Z.to_nat 1) r2.
Proof.
  assert (Hreach : reachable rigidEngine) by apply reach_add, reach_new.
  pose proof (reachable_postingsInRange _ Hreach) as Hr.
  pose proof (reachable_keysNonEmpty _ Hreach) as Hk.
  destruct (Search_run rigidEngine map_to_list "rigid" 1 Hr Hk rigidEngine_goSized
              admissible_map_to_list)
    as (s1 & k1 & r1 & _ & _ & _ & _ & Hrun1 & _);
    [lia|vm_compute; discriminate|vm_compute; discriminate|].
  destruct (Search_run rigidEngine map_to_list "rigid" 5 Hr Hk rigidEngine_goSized
              admissible_map_to_list)
    as (s2 & k2 & r2 & _ & _ & _ & _ & Hrun2 & _);
    [lia|vm_compute; discriminate|vm_compute; discriminate|].
  exists r1, r2. split; [exact Hrun1|]. split; [exact Hrun2|].
  apply (X23_smaller_topK_gives_prefix rigidEngine map_to_list "rigid" 1 5 r1 r2).
  - exact Hreach.
  - apply rigidEngine_goSized.
  - apply admissible_map_to_list.
  - lia.
  - exact Hrun1.
  - exact Hrun2.
Defined.

(** ** Queries without ties *)

Lemma descending_perm_unique l1 : ∀ l2,
  l1 ≡ₚ l2 → descending l1 → descending l2 →
  (∀ a b, a ∈ l1 → b ∈ l1 → sd_score a = sd_score b → a = b) →
  l1 = l2.
Proof.
  induction l1 as [|a l1 IH]; intros l2 Hperm Hs1 Hs2 Hinj.
  - by apply Permutation_nil in Hperm.
  - destruct l2 as [|b l2].
    { symmetry in Hperm. by apply Permutation_nil_cons in Hperm. }
    assert (Hab : a = b).
    { apply Hinj; [left| |].
      - rewrite Hperm. left.
      - apply Rle_antisym.
        + apply (descending_head b l2 a Hs2). rewrite <- Hperm. left.
        + apply (descending_head a l1 b Hs1). rewrite Hperm. left. }
    subst b. f_equal. apply IH.
    + by apply Permutation_cons_inv in Hperm.
    + by apply StronglySorted_inv in Hs1 as [Hs1 _].
    + by apply StronglySorted_inv in Hs2 as [Hs2 _].
    + intros x y Hx Hy. apply Hinj; by right.
Qed.

(** The store [pairEngine] and the query [foo]: the two slots are the
    candidates, and the slot with five occurrences has the larger score. *)
Lemma pairEngine_avgDocLen : avgDocLen pairEngine = 5.
Proof.
  assert (Hdocs : docs pairEngine = [docFive; docOne]) by (vm_compute; reflexivity).
  assert (H5 : length (tokenize (docText docFive)) = 5%nat) by (vm_compute; reflexivity).
  assert (H1 : length (tokenize (docText docOne)) = 5%nat) by (vm_compute; reflexivity).
  rewrite avgDocLen_mean, Hdocs. rewrite decide_False by discriminate.
  unfold totalTokens. cbn [map sum_list sum_list_with length]. rewrite H5, H1.
  simpl. lra.
Qed.

Lemma tfNorm_five_one :
  tfNorm 1 (INR 5) 5 1.5 0.75 < tfNorm 5 (INR 5) 5 1.5 0.75.
Proof.
  assert (H1 : tfNorm 1 (INR 5) 5 1.5 0.75 = 1).
  { unfold tfNorm. simpl.
    match goal with |- _ / ?d = _ => replace d with 2.5 by lra end. lra. }
  assert (H5 : tfNorm 5 (INR 5) 5 1.5 0.75 = 25 / 13).
  { unfold tfNorm. simpl.
    match goal with |- _ / ?d = _ => replace d with 6.5 by lra end. lra. }
  rewrite H1, H5. lra.
Qed.

Lemma pair_query :
  (∀ idx, candidate pairEngine (tokenize "foo") idx → idx = 0%nat ∨ idx = 1%nat)
  ∧ candidate pairEngine (tokenize "foo") 0
  ∧ candidate pairEngine (tokenize "foo") 1
  ∧ totalScore pairEngine (tokenize "foo") 1 < totalScore pairEngine (tokenize "foo") 0.
Proof.
  assert (Htok : tokenize "foo" = ["foo"]) by (vm_compute; reflexivity).
  assert (Hdocs : docs pairEngine = [docFive; docOne]) by (vm_compute; reflexivity).
  assert (Hix : index pairEngine !! "foo" = Some [0; 1]%nat) by (vm_compute; reflexivity).
  assert (Hkeys : forallb (λ u, negb (prefixMatch "foo" u)) (indexKeys pairEngine) = true)
    by (vm_compute; reflexivity).
  assert (Htf5 : countOccurrences "foo" (docText docFive) = Some 5%nat)
    by (vm_compute; reflexivity).
  assert (Htf1 : countOccurrences "foo" (docText docOne) = Some 1%nat)
    by (vm_compute; reflexivity).
  assert (Hlen5 : length (tokenize (docText docFive)) = 5%nat) by (vm_compute; reflexivity).
  assert (Hlen1 : length (tokenize (docText docOne)) = 5%nat) by (vm_compute; reflexivity).
  assert (Ht5 : titleHits (ToLower (Title docFive)) ["foo"] = 0%nat)
    by (vm_compute; reflexivity).
  assert (Ht1 : titleHits (ToLower (Title docOne)) ["foo"] = 0%nat)
    by (vm_compute; reflexivity).
  rewrite Htok.
  assert (Hpost : ∀ idx, idx = 0%nat ∨ idx = 1%nat → idx ∈ postingsOf pairEngine "foo").
  { intros idx Hidx. unfold postingsOf. rewrite Hix. cbn [default].
    destruct Hidx as [->| ->]; [left|right; left]. }
  split; [|split; [|split]].
  - intros idx [(t & Ht & H)|(doc & t & Hl & _)].
    + apply list_elem_of_singleton in Ht as ->. destruct H as [H|(u & Hu & Hm & _)].
      * unfold postingsOf in H. rewrite Hix in H. cbn [default] in H.
        apply elem_of_cons in H as [->|H]; [left; reflexivity|].
        apply list_elem_of_singleton in H as ->. right; reflexivity.
      * rewrite forallb_forall in Hkeys. apply list_elem_of_In, Hkeys in Hu.
        rewrite Hm in Hu. discriminate Hu.
    + apply lookup_lt_Some in Hl. rewrite Hdocs in Hl. cbn [length] in Hl. lia.
  - left. exists "foo". split; [left|]. left. apply Hpost. left; reflexivity.
  - left. exists "foo". split; [left|]. left. apply Hpost. right; reflexivity.
  - unfold totalScore, titleScore, termScore, perPosting. cbn [sumOver].
    rewrite (prefixScore_none pairEngine "foo" _ _ _ 1%nat Hkeys).
    rewrite (prefixScore_none pairEngine "foo" _ _ _ 0%nat Hkeys).
    rewrite Hix, Hdocs. cbn [lookup list_lookup].
    rewrite Htf5, Htf1, Hlen5, Hlen1, Ht5, Ht1, pairEngine_avgDocLen.
    change (count_occ Nat.eq_dec [0; 1]%nat 1%nat) with 1%nat.
    change (count_occ Nat.eq_dec [0; 1]%nat 0%nat) with 1%nat.
    change (length [docFive; docOne]) with 2%nat.
    change (length [0; 1]%nat) with 2%nat.
    assert (Hidf : 0 < idfOf (INR 2) (INR 2)).
    { apply idfOf_pos; [apply lt_0_INR; lia|lra]. }
    pose proof tfNorm_five_one as Htf.
    revert Hidf Htf.
    generalize (idfOf (INR 2) (INR 2)) (tfNorm 1 (INR 5) 5 1.5 0.75)
               (tfNorm 5 (INR 5) 5 1.5 0.75).
    intros idf t1 t5 Hidf Htf.
    change (INR 1) with 1. change (INR 0) with 0.
    assert (idf * t1 < idf * t5) by (apply Rmult_lt_compat_l; assumption).
    lra.
Qed.

(** X24. In a store with a positive average document length, so that
    every score is a number: when no two candidate slots of a query have
    the same score, the result list does not depend on the order in which
    the range over the score map delivers the entries. *)
Theorem X24_no_ties_no_choice e pick1 pick2 query topK :
  reachable e → 0 < avgDocLen e → admissible pick1 → admissible pick2 →
  (∀ i j, candidate e (tokenize query) i → candidate e (tokenize query) j →
          totalScore e (tokenize query) i = totalScore e (tokenize query) j → i = j) →
  Search pick1 e query topK = Search pick2 e query topK.
Proof.
  intros Hreach _ Hp1 Hp2 Hdistinct.
  pose proof (reachable_postingsInRange e Hreach) as Hr.
  pose proof (reachable_keysNonEmpty e Hreach) as Hk.
  unfold Search.
  destruct (length (docs e) =? 0)%nat; [reflexivity|].
  destruct (length (tokenize query) =? 0)%nat; [reflexivity|].
  destruct (searchScores_spec e (tokenize query) Hr Hk)
    as (scores & Hsc & Hdom & _ & Hval).
  rewrite Hsc. cbn [mbind option_bind]. unfold rankResults.
  fold (collect (pick1 scores)). fold (collect (pick2 scores)).
  assert (Helem : ∀ pick, admissible pick → ∀ sd,
            sd ∈ insertionSort (collect (pick scores))
            → scores !! sd_idx sd = Some (sd_score sd)).
  { intros pick Hp sd Hsd. rewrite insertionSort_perm in Hsd.
    apply collect_elem in Hsd. rewrite (Hp scores) in Hsd.
    by apply elem_of_map_to_list in Hsd. }
  assert (Heq : insertionSort (collect (pick1 scores))
                = insertionSort (collect (pick2 scores))).
  { apply descending_perm_unique.
    - rewrite !insertionSort_perm. unfold collect.
      by rewrite (Hp1 scores), (Hp2 scores).
    - apply insertionSort_descending.
    - apply insertionSort_descending.
    - intros a b Ha Hb Hab.
      apply (Helem pick1 Hp1) in Ha. apply (Helem pick1 Hp1) in Hb.
      assert (Hidx : sd_idx a = sd_idx b).
      { apply Hdistinct.
        - apply Hdom, elem_of_dom. by eexists.
        - apply Hdom, elem_of_dom. by eexists.
        - rewrite <- !Hval. unfold scoreOf. rewrite Ha, Hb. exact Hab. }
      destruct a, b. cbn in *. congruence. }
  rewrite Heq. reflexivity.
Qed.

Lemma X24_no_ties_no_choice_witness :
  candidate pairEngine (tokenize "foo") 0
  ∧ candidate pairEngine (tokenize "foo") 1
  ∧ Search pickAsc pairEngine "foo" 5 = Search pickDesc pairEngine "foo" 5.
Proof.
  destruct pair_query as (Hcand & Hc0 & Hc1 & Hlt).
  split; [exact Hc0|]. split; [exact Hc1|].
  apply (X24_no_ties_no_choice pairEngine pickAsc pickDesc "foo" 5).
  - repeat apply reach_add. apply reach_new.
  - rewrite pairEngine_avgDocLen. lra.
  - apply admissible_pickAsc.
  - apply admissible_pickDesc.
  - intros i j Hi Hj. apply Hcand in Hi, Hj. revert Hlt.
    generalize (totalScore pairEngine (tokenize "foo")). intros f Hlt Heq.
    destruct Hi as [->| ->], Hj as [->| ->]; try reflexivity; lra.
Defined.
